(** * flow: pins, pipes and node execution loops (node.h)

    A shallow embedding of [flow::pin], [flow::inpin], [flow::outpin],
    [flow::node], [flow::producer] and [flow::consumer].  Objects reached
    through pointers (pins, pipes shared by two pins, state monitors) live
    in a store indexed by addresses, so that two pins holding the same
    [shared_ptr] really alias one pipe. *)

From stdpp Require Import gmap strings list sorting.

Local Open Scope N_scope.

(** ** States and packets *)

(** [enum flow::state]. *)
Inductive state :=
  | start_requested
  | started
  | incoming
  | pause_requested
  | paused
  | stop_requested.

#[global] Instance state_eq_dec : EqDecision state.
Proof. solve_decision. Defined.

(** Modelled from the spec: [flow::packet] (packet.h): a payload, an
    optional consumption time, and the weight the packet counts for in a
    pipe's capacity accounting (one unit by default). *)
Record packet := mk_packet {
  payload : Z;
  consumption_time : option Z;
  weight : N
}.

#[global] Instance packet_eq_dec : EqDecision packet.
Proof. solve_decision. Defined.

(** Addresses of pins, pipes and node state monitors. *)
Abbreviation pin_ptr := nat (only parsing).
Abbreviation pipe_ptr := nat (only parsing).
Abbreviation node_ptr := nat (only parsing).

(** ** Pipes *)

(** Modelled from the spec: [flow::pipe] (pipe.h), a named bounded queue
    of packets with its two ends, as node.h uses it.  The constructor
    receives the name, the [outpin*], the [inpin*] and the two caps, in
    that order (node.h line 106).  [output()] is the [inpin*]:
    [outpin::push] stores it in an [inpin*] and calls [incoming()] on it
    (line 228).  [input()] is the other end, the [outpin*] that feeds the
    pipe; it is the pin [pin::connect] disconnects when "the output pin
    is already connected to a pipe" (lines 71 and 83-90).  A cap of 0
    means unlimited. *)
Record pipe := mk_pipe {
  pipe_name : string;
  d_packets : list packet;
  d_input_p : option pin_ptr;
  d_output_p : option pin_ptr;
  d_max_length : N;
  d_max_weight : N
}.

(** Modelled from the spec: the constructor of [pipe]; the queue starts
    empty. *)
Definition pipe_new (name_r : string) (input_p output_p : pin_ptr)
    (max_length max_weight : N) : pipe :=
  mk_pipe name_r [] (Some input_p) (Some output_p) max_length max_weight.

(** Modelled from the spec: the accessors [pipe::input] and
    [pipe::output]. *)
Definition pipe_input (p : pipe) : option pin_ptr := d_input_p p.
Definition pipe_output (p : pipe) : option pin_ptr := d_output_p p.

(** Modelled from the spec: [pipe::length], the number of queued
    packets, and the cumulative weight of the queue. *)
Definition pipe_length (p : pipe) : N := N.of_nat (length (d_packets p)).

Definition pipe_weight (p : pipe) : N :=
  foldr (fun pk acc => weight pk + acc) 0 (d_packets p).

(** Modelled from the spec: [named::rename] on a pipe. *)
Definition pipe_rename (p : pipe) (name_r : string) : pipe :=
  mk_pipe name_r (d_packets p) (d_input_p p) (d_output_p p)
          (d_max_length p) (d_max_weight p).

(** Modelled from the spec: [pipe::cap_length] and [pipe::cap_weight]
    set the length cap and the weight cap. *)
Definition pipe_cap_length (p : pipe) (max_length : N) : pipe :=
  mk_pipe (pipe_name p) (d_packets p) (d_input_p p) (d_output_p p)
          max_length (d_max_weight p).

Definition pipe_cap_weight (p : pipe) (max_weight : N) : pipe :=
  mk_pipe (pipe_name p) (d_packets p) (d_input_p p) (d_output_p p)
          (d_max_length p) max_weight.

(** Modelled from the spec: a capacity constraint; 0 is unlimited. *)
Definition within_cap (cap value : N) : bool :=
  (cap =? 0) || (value <=? cap).

(** Modelled from the spec: [pipe::push] appends if both capacity
    constraints hold after insertion, otherwise it rejects. *)
Definition pipe_push (p : pipe) (pk : packet) : pipe * bool :=
  if within_cap (d_max_length p) (pipe_length p + 1)
     && within_cap (d_max_weight p) (pipe_weight p + weight pk)
  then (mk_pipe (pipe_name p) (d_packets p ++ [pk]) (d_input_p p)
                (d_output_p p) (d_max_length p) (d_max_weight p), true)
  else (p, false).

(** Modelled from the spec: [pipe::pop] removes and returns the front
    packet. *)
Definition pipe_pop (p : pipe) : pipe * option packet :=
  match d_packets p with
  | [] => (p, None)
  | pk :: rest =>
      (mk_pipe (pipe_name p) rest (d_input_p p) (d_output_p p)
               (d_max_length p) (d_max_weight p), Some pk)
  end.

(** ** Pins and the store *)

(** [pin::dir]; [in] is a reserved word. *)
Inductive dir := dir_in | dir_out.

#[global] Instance dir_eq_dec : EqDecision dir.
Proof. solve_decision. Defined.

(** The two classes derived from [pin]: an inpin carries the reference
    [d_state_m_r] to its node's state monitor. *)
Inductive pin_class :=
  | inpin (d_state_m_r : node_ptr)
  | outpin.

Record pin := mk_pin {
  pin_name : string;
  d_pipe_cr_sp : option pipe_ptr;
  class : pin_class
}.

Definition direction (pn : pin) : dir :=
  match class pn with
  | inpin _ => dir_in
  | outpin => dir_out
  end.

Record world := mk_world {
  pins : gmap nat pin;
  pipes : gmap nat pipe;
  monitors : gmap nat state
}.

(** Assignment to [d_pipe_cr_sp] of the pin at address [i]. *)
Definition with_pipe_ref (r : option pipe_ptr) (pn : pin) : pin :=
  mk_pin (pin_name pn) r (class pn).

Definition set_pipe_ref (w : world) (i : pin_ptr) (r : option pipe_ptr) : world :=
  mk_world (alter (with_pipe_ref r) i (pins w)) (pipes w) (monitors w).

Definition set_pipe (w : world) (r : pipe_ptr) (p : pipe) : world :=
  mk_world (pins w) (<[r := p]> (pipes w)) (monitors w).

Definition set_monitor (w : world) (n : node_ptr) (s : state) : world :=
  mk_world (pins w) (pipes w) (<[n := s]> (monitors w)).

(** What [d_pipe_cr_sp] of pin [i] points to, if it is not null. *)
Definition pin_pipe (w : world) (i : pin_ptr) : option (pipe_ptr * pipe) :=
  pn ← pins w !! i;
  r ← d_pipe_cr_sp pn;
  p ← pipes w !! r;
  Some (r, p).

(** Calls and lock operations a function performs, in program order. *)
Inductive event :=
  | ev_access (r : pipe_ptr)
  | ev_release (r : pipe_ptr)
  | ev_pipe_push (r : pipe_ptr) (accepted : bool)
  | ev_incoming (i : pin_ptr)
  | ev_disconnect (i : pin_ptr)
  | ev_delete (pk : packet)
  | ev_produce
  | ev_ready (n : nat).

#[global] Instance event_eq_dec : EqDecision event.
Proof. solve_decision. Defined.

(** [pin::disconnect]: [d_pipe_cr_sp.reset()]. *)
Definition pin_disconnect (w : world) (this : pin_ptr) : world :=
  set_pipe_ref w this None.

(** [inpin::incoming]: under the monitor's lock, [started] becomes
    [incoming]; any other state is left alone. *)
Definition inpin_incoming (w : world) (this : pin_ptr) : world :=
  match pins w !! this with
  | Some (mk_pin _ _ (inpin n)) =>
      match monitors w !! n with
      | Some started => set_monitor w n incoming
      | _ => w
      end
  | _ => w
  end.

(** [inpin::peek]. *)
Definition inpin_peek (w : world) (this : pin_ptr) : bool :=
  match pin_pipe w this with
  | None => false
  | Some (_, p) => negb (pipe_length p =? 0)
  end.

(** [inpin::pop]: [None] is [nullptr]. *)
Definition inpin_pop (w : world) (this : pin_ptr) : world * option packet :=
  match pin_pipe w this with
  | None => (w, None)
  | Some (r, p) =>
      if negb (pipe_length p =? 0)
      then let '(p', pk) := pipe_pop p in (set_pipe w r p', pk)
      else (w, None)
  end.

(** [outpin::push].  The packet arrives in the by-value parameter
    [packet_p]; whatever the parameter still owns when the function
    returns is freed by its destructor ([ev_delete]). *)
Definition outpin_push (w : world) (this : pin_ptr) (packet_p : packet)
    : world * bool * list event :=
  match pin_pipe w this with
  | None => (w, false, [ev_delete packet_p])
  | Some (r, p) =>
      let '(p', accepted) := pipe_push p packet_p in
      let inpin_p := if accepted then pipe_output p' else None in
      let w1 := set_pipe w r p' in
      let locked := [ev_access r; ev_pipe_push r accepted; ev_release r] in
      let freed := if accepted then [] else [ev_delete packet_p] in
      match inpin_p with
      | Some i => (inpin_incoming w1 i, false, locked ++ [ev_incoming i] ++ freed)
      | None => (w1, true, locked ++ freed)
      end
  end.

(** A call [o.push(std::move(p))] from a caller that holds the packet in
    its own [unique_ptr]: constructing the by-value parameter moves the
    packet out of the caller's pointer, which is null afterwards. *)
Definition call_push (w : world) (this : pin_ptr) (caller_p : packet)
    : world * bool * list event * option packet :=
  (outpin_push w this caller_p, None).

(** ** Connecting pins *)

(** [std::make_shared]: the new pipe lives at an address no pipe has. *)
Definition new_pipe_ptr (w : world) : pipe_ptr := fresh (dom (pipes w)).

(** [other->name() + "_to_" + name()]. *)
Definition pipe_label (other_pin this_pin : pin) : string :=
  String.append (pin_name other_pin) (String.append "_to_" (pin_name this_pin)).

(** The pipe address held by the pin at [i], if any. *)
Definition pin_ref (w : world) (i : pin_ptr) : option pipe_ptr :=
  pins w !! i ≫= d_pipe_cr_sp.

(** The pins are the holders of the [shared_ptr]s: pipe [r] is alive as
    long as some pin holds it.  Here no pin but [q] does. *)
Definition only_holder (w : world) (r : pipe_ptr) (q : pin_ptr) : Prop :=
  map_Forall (fun j pn => d_pipe_cr_sp pn = Some r -> j = q) (pins w).

#[global] Instance only_holder_dec w r q : Decision (only_holder w r q).
Proof. unfold only_holder. apply _. Defined.

(** The first block of [pin::connect] locks the pipe of [other] and calls
    [disconnect()] on the pin recorded as its [input()].  If that pin
    holds the last reference to the locked pipe, [reset()] destroys the
    pipe while the accessor [other_pipe_a] still holds its lock. *)
Definition drops_last_reference (w : world) (other : pin_ptr) : Prop :=
  match pin_pipe w other with
  | Some (r, other_pipe_a) =>
      match pipe_input other_pipe_a with
      | Some q => pin_ref w q = Some r /\ only_holder w r q
      | None => False
      end
  | None => False
  end.

#[global] Instance drops_last_reference_dec w other :
  Decision (drops_last_reference w other).
Proof.
  unfold drops_last_reference.
  destruct (pin_pipe w other) as [[r p]|]; [|apply _].
  destruct (pipe_input p); apply _.
Defined.

(** First block of [pin::connect], "Disconnect the input of the other's
    pipe", under that pipe's lock, when the pipe outlives the block. *)
Definition disconnect_input_of_live (w : world) (other : pin_ptr)
    : world * list event :=
  match pin_pipe w other with
  | Some (r, other_pipe_a) =>
      match pipe_input other_pipe_a with
      | Some q => (pin_disconnect w q, [ev_access r; ev_disconnect q; ev_release r])
      | None => (w, [ev_access r; ev_release r])
      end
  | None => (w, [])
  end.

(** First block of [pin::connect].  [None] is undefined behaviour: the
    locked pipe is destroyed under its own accessor. *)
Definition disconnect_input_of (w : world) (other : pin_ptr)
    : option (world * list event) :=
  if decide (drops_last_reference w other) then None
  else Some (disconnect_input_of_live w other).

(** [pin::connect], called on the inpin [this] with the outpin [other].
    [None] is a failed [assert] or undefined behaviour in the first
    block. *)
Definition pin_connect (w : world) (this other : pin_ptr)
    (max_length max_weight : N) : option (world * list event) :=
  this_pin ← pins w !! this;
  other_pin ← pins w !! other;
  if decide (direction this_pin = dir_in /\ direction other_pin = dir_out)
  then
    '(w1, e1) ← disconnect_input_of w other;
    match pin_pipe w1 this with
    | Some (r, this_pipe_a) =>
        (* This inpin already has a pipe, connect the outpin to it. *)
        let w2 := set_pipe_ref w1 other (Some r) in
        let p1 := pipe_rename this_pipe_a (pipe_label other_pin this_pin) in
        let p2 := if max_length =? 0 then p1 else pipe_cap_length p1 max_length in
        let p3 := if max_weight =? 0 then p2 else pipe_cap_length p2 max_weight in
        Some (set_pipe w2 r p3, e1 ++ [ev_access r; ev_release r])
    | None =>
        (* This inpin has no pipe, make a new one. *)
        let r := new_pipe_ptr w1 in
        let p := pipe_new (pipe_label other_pin this_pin) other this
                          max_length max_weight in
        let w2 := set_pipe w1 r p in
        Some (set_pipe_ref (set_pipe_ref w2 this (Some r)) other (Some r), e1)
    end
  else None.

(** [inpin::connect] and [outpin::connect]. *)
Definition inpin_connect (w : world) (this outpin_r : pin_ptr)
    (max_length max_weight : N) : option (world * list event) :=
  pin_connect w this outpin_r max_length max_weight.

Definition outpin_connect (w : world) (this inpin_r : pin_ptr)
    (max_length max_weight : N) : option (world * list event) :=
  inpin_connect w inpin_r this max_length max_weight.

(** ** Nodes *)

(** The value held by a node's state monitor.  The [node] constructor
    stores [paused], so a monitor nobody has written yet reads [paused]. *)
Definition state_of (w : world) (n : node_ptr) : state :=
  default paused (monitors w !! n).

(** [node::start], [node::pause], [node::stop]. *)
Definition node_start (w : world) (this : node_ptr) : world :=
  set_monitor w this start_requested.

Definition node_pause (w : world) (this : node_ptr) : world :=
  set_monitor w this pause_requested.

Definition node_stop (w : world) (this : node_ptr) : world :=
  set_monitor w this stop_requested.

(** One atomic action of a node's thread: it moves on, it is suspended in
    [wait_for] because the predicate does not hold, or [operator()] has
    returned.  The monitor is lwsync's: every access is one critical
    section, and [wait_for] hands out the value once its predicate holds. *)
Inductive outcome (T : Type) :=
  | Stepped (t : T) (w : world) (evs : list event)
  | Blocked
  | Returned.
Arguments Stepped {T} t w evs.
Arguments Blocked {T}.
Arguments Returned {T}.

(** The predicate of the wait entered while [paused] (both loops). *)
Definition wakes_paused (state_r : state) : bool :=
  bool_decide (state_r = start_requested) || bool_decide (state_r = stop_requested).

(** The predicate of the consumer's wait entered while [started]. *)
Definition wakes_started (state_r : state) : bool :=
  negb (bool_decide (state_r = started)).

(** *** producer::operator() *)

(** Program points of the loop: the initial assignment, the [while] test,
    the read of the monitor (blocking or not), the two settling
    assignments, and the call of [produce]. *)
Inductive producer_pc := p_entry | p_while | p_observe | p_settle | p_callback.

Record producer_thread := mk_producer {
  p_at : producer_pc;
  p_s : state
}.

Section Producer.
Variable produce : world -> world.
Variable this : node_ptr.

Definition producer_step (t : producer_thread) (w : world)
    : outcome producer_thread :=
  let s := p_s t in
  match p_at t with
  | p_entry =>
      Stepped (mk_producer p_while started) (set_monitor w this started) []
  | p_while =>
      if decide (s = stop_requested) then Returned
      else Stepped (mk_producer p_observe s) w []
  | p_observe =>
      if decide (s = paused) then
        if wakes_paused (state_of w this)
        then Stepped (mk_producer p_settle (state_of w this)) w []
        else Blocked
      else Stepped (mk_producer p_settle (state_of w this)) w []
  | p_settle =>
      if decide (s = pause_requested)
      then Stepped (mk_producer p_callback paused) (set_monitor w this paused) []
      else if decide (s = start_requested)
      then Stepped (mk_producer p_callback started) (set_monitor w this started) []
      else Stepped (mk_producer p_callback s) w []
  | p_callback =>
      if decide (s = started)
      then Stepped (mk_producer p_while s) (produce w) [ev_produce]
      else Stepped (mk_producer p_while s) w []
  end.
End Producer.

(** *** consumer::operator() *)

(** As for the producer, with the scan of the input pins: [c_scan i] is
    the test [i != ins()] of the [for] loop. *)
Inductive consumer_pc :=
  | c_entry | c_while | c_observe | c_settle | c_callback | c_scan (i : nat).

Record consumer_thread := mk_consumer {
  c_at : consumer_pc;
  c_s : state
}.

Section Consumer.
Variable ready : nat -> world -> world.
Variable this : node_ptr.
Variable d_inputs : list pin_ptr.

Definition ins : nat := length d_inputs.

(** In [c_scan i] the index never exceeds [ins()], so [d_inputs !! i]
    is [None] exactly when [i = ins()]. *)
Definition consumer_step (t : consumer_thread) (w : world)
    : outcome consumer_thread :=
  let s := c_s t in
  match c_at t with
  | c_entry =>
      Stepped (mk_consumer c_while started) (set_monitor w this started) []
  | c_while =>
      if decide (s = stop_requested) then Returned
      else Stepped (mk_consumer c_observe s) w []
  | c_observe =>
      if decide (s = paused) then
        if wakes_paused (state_of w this)
        then Stepped (mk_consumer c_settle (state_of w this)) w []
        else Blocked
      else if decide (s = started) then
        if wakes_started (state_of w this)
        then Stepped (mk_consumer c_settle (state_of w this)) w []
        else Blocked
      else Stepped (mk_consumer c_settle (state_of w this)) w []
  | c_settle =>
      if decide (s = pause_requested)
      then Stepped (mk_consumer c_callback paused) (set_monitor w this paused) []
      else if decide (s = start_requested)
      then Stepped (mk_consumer c_callback started) (set_monitor w this started) []
      else if decide (s = incoming)
      then Stepped (mk_consumer c_callback s) (set_monitor w this started) []
      else Stepped (mk_consumer c_callback s) w []
  | c_callback =>
      if decide (s = incoming)
      then Stepped (mk_consumer (c_scan 0) s) w []
      else Stepped (mk_consumer c_while s) w []
  | c_scan i =>
      match d_inputs !! i with
      | None => Stepped (mk_consumer c_while s) w []
      | Some input_i =>
          if inpin_peek w input_i
          then Stepped (mk_consumer (c_scan (S i)) s) (ready i w) [ev_ready i]
          else Stepped (mk_consumer (c_scan (S i)) s) w []
      end
  end.
End Consumer.

(** ** Running a thread *)

Inductive status := Running | Suspended | Finished.

(** The thread alone, for at most [fuel] actions. *)
Fixpoint run {T} (step : T -> world -> outcome T) (fuel : nat) (t : T) (w : world)
    : status * T * world * list event :=
  match fuel with
  | O => (Running, t, w, [])
  | S fuel' =>
      match step t w with
      | Stepped t' w' evs =>
          let '(st, t'', w'', evs') := run step fuel' t' w' in
          (st, t'', w'', evs ++ evs')
      | Blocked => (Suspended, t, w, [])
      | Returned => (Finished, t, w, [])
      end
  end.

(** What other threads may do to the store in the meantime. *)
Inductive request :=
  | req_start (n : node_ptr)
  | req_pause (n : node_ptr)
  | req_stop (n : node_ptr)
  | req_push (o : pin_ptr) (pk : packet).

Definition request_apply (rq : request) (w : world) : world :=
  match rq with
  | req_start n => node_start w n
  | req_pause n => node_pause w n
  | req_stop n => node_stop w n
  | req_push o pk => (outpin_push w o pk).1.1
  end.

Inductive action :=
  | act_thread
  | act_other (rq : request).

(** A schedule interleaves actions of the thread with requests of other
    threads; a suspended or finished thread does nothing on its turn. *)
Fixpoint exec {T} (step : T -> world -> outcome T) (sched : list action)
    (t : T) (w : world) : T * world * list event :=
  match sched with
  | [] => (t, w, [])
  | act_thread :: sched' =>
      match step t w with
      | Stepped t' w' evs =>
          let '(t'', w'', evs') := exec step sched' t' w' in
          (t'', w'', evs ++ evs')
      | _ => exec step sched' t w
      end
  | act_other rq :: sched' => exec step sched' t (request_apply rq w)
  end.

(** ** Reading traces *)

(** The pins whose [incoming()] a trace calls, in order. *)
Definition notified (evs : list event) : list pin_ptr :=
  omap (fun e => match e with ev_incoming i => Some i | _ => None end) evs.

(** The locks still held once [r] is released. *)
Fixpoint released (r : pipe_ptr) (held : list pipe_ptr) : list pipe_ptr :=
  match held with
  | [] => []
  | r' :: held' =>
      if decide (r' = r) then released r held' else r' :: released r held'
  end.

(** No pipe lock is held at any call of [incoming()]: [held] lists the
    pipes locked so far and not yet released. *)
Fixpoint incoming_unlocked (held : list pipe_ptr) (evs : list event) : bool :=
  match evs with
  | [] => true
  | ev_access r :: evs' => incoming_unlocked (r :: held) evs'
  | ev_release r :: evs' =>
      incoming_unlocked (released r held) evs'
  | ev_incoming _ :: evs' =>
      bool_decide (held = []) && incoming_unlocked held evs'
  | _ :: evs' => incoming_unlocked held evs'
  end.

(** ** The pin and pipe invariant *)

(** The pipe a pin holds exists and records that pin as the end of its
    kind: [output()] for an inpin, [input()] for an outpin. *)
Definition pin_ok (w : world) (i : pin_ptr) (pn : pin) : Prop :=
  forall r, d_pipe_cr_sp pn = Some r ->
    exists p, pipes w !! r = Some p /\
      match class pn with
      | inpin _ => pipe_output p = Some i
      | outpin => pipe_input p = Some i
      end.

(** [input()] is an [outpin*]. *)
Definition pipes_typed (w : world) : Prop :=
  forall r p q, pipes w !! r = Some p -> pipe_input p = Some q ->
    exists pn, pins w !! q = Some pn /\ class pn = outpin.

(** Every pin's pipe records that pin as its end. *)
Definition world_inv (w : world) : Prop :=
  (forall i pn, pins w !! i = Some pn -> pin_ok w i pn) /\ pipes_typed w.

(** The invariant everywhere but at pin [a]. *)
Definition inv_except (a : pin_ptr) (w : world) : Prop :=
  (forall i pn, pins w !! i = Some pn -> i <> a -> pin_ok w i pn) /\
  pipes_typed w.

(** Pin [o] holds no pipe, or a pipe that another pin holds too. *)
Definition not_last_holder (w : world) (o : pin_ptr) : Prop :=
  forall r, pin_ref w o = Some r -> exists j, j <> o /\ pin_ref w j = Some r.

(** The pin that the first block of [pin::connect] disconnects. *)
Definition input_of_pipe_of (w : world) (other : pin_ptr) : option pin_ptr :=
  pin_pipe w other ≫= fun rp => pipe_input rp.2.

(** The caps applied on the reuse path, as written in [pin::connect]. *)
Definition reuse_caps (p : pipe) (max_length max_weight : N) : pipe :=
  let p2 := if max_length =? 0 then p else pipe_cap_length p max_length in
  if max_weight =? 0 then p2 else pipe_cap_length p2 max_weight.

(** ** Describing the loops *)

(** The settling assignments of both loops, on the state just read. *)
Definition settled (s : state) : state :=
  match s with
  | pause_requested => paused
  | start_requested => started
  | _ => s
  end.

(** The store after the producer's settling assignments. *)
Definition producer_settle (this : node_ptr) (s : state) (w : world) : world :=
  match s with
  | pause_requested | start_requested => set_monitor w this (settled s)
  | _ => w
  end.

(** A schedule in which nobody calls [start()] or [stop()] on [this]. *)
Definition no_start_stop (this : node_ptr) (sched : list action) : Prop :=
  Forall (fun a => a <> act_other (req_start this) /\
                   a <> act_other (req_stop this)) sched.

(** The scan of the input pins as the loop is described: every pin in
    index order, [ready(index)] for each pin that peeks non-empty; the
    result is the store and the indices [ready] was called with. *)
Fixpoint scan_from (ready : nat -> world -> world) (i : nat)
    (inputs : list pin_ptr) (w : world) : world * list nat :=
  match inputs with
  | [] => (w, [])
  | input_i :: rest =>
      if inpin_peek w input_i
      then let '(w', called) := scan_from ready (S i) rest (ready i w) in
           (w', i :: called)
      else scan_from ready (S i) rest w
  end.

(** ** Example stores *)

(** Two packets of weight one. *)
Definition pk0 : packet := mk_packet 42 None 1.
Definition pk1 : packet := mk_packet 43 None 1.

(** Outpins A (0) and B (3), inpins X (1) and Y (2) of node 0, nothing
    connected, node 0 started. *)
Definition w_fresh : world :=
  mk_world (<[0%nat := mk_pin "A" None outpin]>
            (<[1%nat := mk_pin "X" None (inpin 0%nat)]>
            (<[2%nat := mk_pin "Y" None (inpin 0%nat)]>
            (<[3%nat := mk_pin "B" None outpin]> ∅))))
           ∅
           (<[0%nat := started]> ∅).

(** A connected to X by [outpin::connect] with the given caps. *)
Definition w_AX (max_length max_weight : N) : world :=
  match outpin_connect w_fresh 0%nat 1%nat max_length max_weight with
  | Some (w, _) => w
  | None => w_fresh
  end.

(** B connected to Y first, by [outpin::connect]. *)
Definition w_BY : world :=
  match outpin_connect w_fresh 3%nat 2%nat 0 0 with
  | Some (w, _) => w
  | None => w_fresh
  end.

(** A consumer whose [ready] pops the pin it is called for. *)
Definition ready_pop (d_inputs : list pin_ptr) (n : nat) (w : world) : world :=
  match d_inputs !! n with
  | Some input_n => (inpin_pop w input_n).1
  | None => w
  end.

(** A connected to X and B to Y, one packet pushed on each. *)
Definition w_two_queued : world :=
  match outpin_connect (w_AX 0 0) 3%nat 2%nat 0 0 with
  | Some (w, _) =>
      (outpin_push (outpin_push w 0%nat pk0).1.1 3%nat pk1).1.1
  | None => w_fresh
  end.

(** ** Lock discipline *)

(** A trace takes a pipe lock only while it holds none, releases only the
    lock it holds, and holds none at the end. *)
Fixpoint lock_discipline (held : option pipe_ptr) (evs : list event) : bool :=
  match evs with
  | [] => bool_decide (held = None)
  | ev_access r :: evs' =>
      bool_decide (held = None) && lock_discipline (Some r) evs'
  | ev_release r :: evs' =>
      bool_decide (held = Some r) && lock_discipline None evs'
  | _ :: evs' => lock_discipline held evs'
  end.

(** ** Constructors of the node classes *)

(** [static_cast<char>('0' + i)]: the low eight bits of [48 + i]. *)
Definition pin_digit (i : nat) : Ascii.ascii :=
  Ascii.ascii_of_N ((48 + N.of_nat i) mod 256).

(** [name_r + tag + static_cast<char>('0' + i)]. *)
Definition numbered_name (name_r tag : string) (i : nat) : string :=
  String.append (String.append name_r tag) (String (pin_digit i) EmptyString).

(** The pins pushed to [d_outputs] by the constructor of [producer]. *)
Definition producer_outputs (name_r : string) (outs : nat) : list pin :=
  (fun i => mk_pin (numbered_name name_r "_out" i) None outpin) <$> seq 0 outs.

(** The pins pushed to [d_inputs] by the constructor of [consumer]; each
    holds a reference to the node's own monitor. *)
Definition consumer_inputs (name_r : string) (this : node_ptr) (ins : nat)
    : list pin :=
  (fun i => mk_pin (numbered_name name_r "_in" i) None (inpin this)) <$> seq 0 ins.

(** ** The test nodes (tests/counted.h) *)

(** [produce_n] and [consumption_counter] derive from the producer and
    the consumer; what they call on their pins is [outpin::push] and
    [inpin::pop]. *)

(** How many packets a trace disposes of: each one is either queued by
    its pipe or freed. *)
Fixpoint disposed (evs : list event) : nat :=
  match evs with
  | [] => 0%nat
  | ev_pipe_push _ true :: evs' => S (disposed evs')
  | ev_delete _ :: evs' => S (disposed evs')
  | _ :: evs' => disposed evs'
  end.

(** The [for] loop of [produce_n::produce]: one new packet pushed on each
    output pin in turn, the result of [push] ignored. *)
Fixpoint push_each (d_outputs : list pin_ptr) (new_packet : packet) (w : world)
    : world * list event :=
  match d_outputs with
  | [] => (w, [])
  | output_i :: rest =>
      let '(w1, _, e1) := outpin_push w output_i new_packet in
      let '(w2, e2) := push_each rest new_packet w1 in
      (w2, e1 ++ e2)
  end.

(** [produce_n::produce]: [n] is the member counter, [new_packet] the
    packet built from [T()]. *)
Definition produce_n_produce (d_outputs : list pin_ptr) (new_packet : packet)
    (n : N) (w : world) : N * world * list event :=
  if n =? 0 then (n, w, [])
  else let '(w', evs) := push_each d_outputs new_packet w in (n - 1, w', evs).

(** [k] calls of [produce_n::produce] in a row. *)
Fixpoint produce_n_times (d_outputs : list pin_ptr) (new_packet : packet)
    (k : nat) (n : N) (w : world) : N * world * list event :=
  match k with
  | O => (n, w, [])
  | S k' =>
      let '(n1, w1, e1) := produce_n_produce d_outputs new_packet n w in
      let '(n2, w2, e2) := produce_n_times d_outputs new_packet k' n1 w1 in
      (n2, w2, e1 ++ e2)
  end.

(** [++] on a [size_t], taken as 64 bits wide: the successor modulo
    [2^64]. *)
Definition size_t_succ (x : N) : N := (x + 1) mod 2 ^ 64.

(** [consumption_counter::ready]: pops input pin 0, whatever [i] is, and
    increments [received[i]] ([i] is always an index of [received]). *)
Definition consumption_counter_ready (d_inputs : list pin_ptr) (i : nat)
    (received : list N) (w : world) : list N * world :=
  match d_inputs !! 0%nat with
  | Some input_0 => (alter size_t_succ i received, (inpin_pop w input_0).1)
  | None => (alter size_t_succ i received, w)
  end.

(** * Properties *)

(** ** outpin::push *)

Lemma pin_pipe_Some w i pn r p :
  pins w !! i = Some pn -> d_pipe_cr_sp pn = Some r -> pipes w !! r = Some p ->
  pin_pipe w i = Some (r, p).
Proof.
  intros Hi Hr Hp. unfold pin_pipe. rewrite Hi. simpl. rewrite Hr. simpl.
  rewrite Hp. reflexivity.
Qed.

Lemma pin_pipe_null w i pn :
  pins w !! i = Some pn -> d_pipe_cr_sp pn = None -> pin_pipe w i = None.
Proof.
  intros Hi Hr. unfold pin_pipe. rewrite Hi. simpl. rewrite Hr. reflexivity.
Qed.

Lemma pipe_push_output p pk : pipe_output (pipe_push p pk).1 = pipe_output p.
Proof. unfold pipe_push. case (_ && _); reflexivity. Qed.

(** With an inpin at the other end, the value returned is the negation of
    what [pipe::push] answered. *)
Lemma outpin_push_return w this pn r p i pk :
  pins w !! this = Some pn -> d_pipe_cr_sp pn = Some r ->
  pipes w !! r = Some p -> pipe_output p = Some i ->
  (outpin_push w this pk).1.2 = negb (pipe_push p pk).2.
Proof.
  intros Hi Hr Hp Ho. unfold outpin_push.
  rewrite (pin_pipe_Some _ _ _ _ _ Hi Hr Hp).
  pose proof (pipe_push_output p pk) as Hout.
  destruct (pipe_push p pk) as [p' [|]]; simpl in *.
  - rewrite Hout, Ho. reflexivity.
  - reflexivity.
Qed.

(** C1: [outpin::push] is documented to return true when the packet was
    moved to the pipe.  Here A is connected to X by an unlimited pipe; the
    pipe accepts the packet (it is queued and X can peek it), [incoming()]
    is called on X, and the call returns false. *)
Theorem outpin_push_accepted_returns_false :
  let '(w', ret, evs) := outpin_push (w_AX 0 0) 0%nat pk0 in
  ret = false /\
  evs = [ev_access 0%nat; ev_pipe_push 0%nat true; ev_release 0%nat;
         ev_incoming 1%nat] /\
  (d_packets <$> pipes w' !! 0%nat) = Some [pk0] /\
  inpin_peek w' 1%nat = true.
Proof. vm_compute. repeat split. Qed.

(** C3: on an outpin whose pipe has an inpin at its other end,
    [incoming()] is called on that inpin exactly once when [pipe::push]
    accepted the packet and not at all when it rejected it, and no pipe
    lock is held when it is called. *)
Theorem outpin_push_notifies_once w this pn r p i pk :
  pins w !! this = Some pn -> d_pipe_cr_sp pn = Some r ->
  pipes w !! r = Some p -> pipe_output p = Some i ->
  notified (outpin_push w this pk).2 = (if (pipe_push p pk).2 then [i] else []) /\
  incoming_unlocked [] (outpin_push w this pk).2 = true /\
  (outpin_push w this pk).1.1 =
    (if (pipe_push p pk).2
     then inpin_incoming (set_pipe w r (pipe_push p pk).1) i
     else set_pipe w r (pipe_push p pk).1).
Proof.
  intros Hi Hr Hp Ho. unfold outpin_push.
  rewrite (pin_pipe_Some _ _ _ _ _ Hi Hr Hp).
  pose proof (pipe_push_output p pk) as Hout.
  destruct (pipe_push p pk) as [p' [|]]; simpl in *.
  - rewrite Hout, Ho. simpl. rewrite decide_True by reflexivity.
    repeat split.
  - repeat split.
Qed.

Lemma outpin_push_notifies_once_witness :
  notified (outpin_push (w_AX 0 0) 0%nat pk0).2 = [1%nat] /\
  incoming_unlocked [] (outpin_push (w_AX 0 0) 0%nat pk0).2 = true.
Proof.
  pose proof (outpin_push_notifies_once (w_AX 0 0) 0%nat
                (mk_pin "A" (Some 0%nat) outpin) 0%nat
                (pipe_new "A_to_X" 0%nat 1%nat 0 0) 1%nat pk0
                eq_refl eq_refl eq_refl eq_refl) as (H1 & H2 & _).
  split; [exact H1 | exact H2].
Defined.

(** A pipe that holds as many packets as its length cap allows rejects
    the next one, whatever the weights. *)
Lemma pipe_push_full p pk :
  d_max_length p <> 0 -> pipe_length p = d_max_length p ->
  pipe_push p pk = (p, false).
Proof.
  intros Hcap Hlen. unfold pipe_push, within_cap. rewrite Hlen.
  destruct (N.eqb_spec (d_max_length p) 0) as [|_]; [contradiction|].
  destruct (N.leb_spec (d_max_length p + 1) (d_max_length p)) as [Hle|_];
    [lia|]. reflexivity.
Qed.

(** What the caller is left with after a push that the pipe rejects. *)
Lemma call_push_rejected w this pn r p i pk :
  pins w !! this = Some pn -> d_pipe_cr_sp pn = Some r ->
  pipes w !! r = Some p -> pipe_output p = Some i ->
  (pipe_push p pk).2 = false ->
  (call_push w this pk).1.1.2 = true /\
  (call_push w this pk).2 = None /\
  ev_delete pk ∈ (call_push w this pk).1.2.
Proof.
  intros Hi Hr Hp Ho Hrej. unfold call_push, outpin_push. simpl.
  rewrite (pin_pipe_Some _ _ _ _ _ Hi Hr Hp).
  destruct (pipe_push p pk) as [p' acc]. simpl in Hrej. subst acc. simpl.
  repeat split. rewrite !elem_of_cons. tauto.
Qed.

(** C2: the documentation of [outpin::push] says that when the pipe has
    reached capacity the push fails and the packet remains valid.  Here
    the pipe from A to X has [max_length = 1] and already holds one
    packet: the next push is rejected by the pipe, the call returns true
    (documented as success), the caller's pointer is null after the call
    and the packet is freed when the by-value parameter goes out of
    scope. *)
Theorem outpin_push_full_pipe_loses_packet :
  let w1 := (outpin_push (w_AX 1 0) 0%nat pk0).1.1 in
  (d_packets <$> pipes w1 !! 0%nat) = Some [pk0] /\
  (d_max_length <$> pipes w1 !! 0%nat) = Some 1 /\
  let '(w2, ret, evs, caller_p) := call_push w1 0%nat pk1 in
  ret = true /\
  evs = [ev_access 0%nat; ev_pipe_push 0%nat false; ev_release 0%nat;
         ev_delete pk1] /\
  caller_p = None /\
  (d_packets <$> pipes w2 !! 0%nat) = Some [pk0].
Proof. vm_compute. repeat split. Qed.

(** C9: on a pin that holds no pipe, [peek] returns false, [pop] returns
    nullptr and [push] returns false (the documented "not moved" value);
    none of them changes the store or notifies anybody. *)
Theorem unconnected_pin_neutral w this pn pk :
  pins w !! this = Some pn -> d_pipe_cr_sp pn = None ->
  inpin_peek w this = false /\
  inpin_pop w this = (w, None) /\
  (outpin_push w this pk).1 = (w, false) /\
  notified (outpin_push w this pk).2 = [].
Proof.
  intros Hi Hr. unfold inpin_peek, inpin_pop, outpin_push.
  rewrite (pin_pipe_null _ _ _ Hi Hr). repeat split.
Qed.

Lemma unconnected_pin_neutral_witness :
  pins w_fresh !! 1%nat = Some (mk_pin "X" None (inpin 0%nat)) /\
  inpin_peek w_fresh 1%nat = false /\
  inpin_pop w_fresh 1%nat = (w_fresh, None) /\
  (outpin_push w_fresh 1%nat pk0).1 = (w_fresh, false) /\
  notified (outpin_push w_fresh 1%nat pk0).2 = [].
Proof.
  split; [reflexivity|].
  apply (unconnected_pin_neutral w_fresh 1%nat (mk_pin "X" None (inpin 0%nat)) pk0);
    reflexivity.
Defined.

(** C10: a push on an outpin without a pipe returns false, the very value
    returned by a push that the pipe accepted and that called
    [incoming()]; the packet handed to the unconnected pin is freed and
    the caller's pointer is null. *)
Theorem push_unconnected_same_as_delivered w1 o1 pn1 pk1 w2 o2 pk2 r i :
  pins w1 !! o1 = Some pn1 -> d_pipe_cr_sp pn1 = None ->
  ev_pipe_push r true ∈ (outpin_push w2 o2 pk2).2 ->
  ev_incoming i ∈ (outpin_push w2 o2 pk2).2 ->
  (outpin_push w1 o1 pk1).1.2 = false /\
  (outpin_push w2 o2 pk2).1.2 = (outpin_push w1 o1 pk1).1.2 /\
  call_push w1 o1 pk1 = (w1, false, [ev_delete pk1], None).
Proof.
  intros Hi Hr Hacc Hinc. unfold call_push.
  assert (Hun : outpin_push w1 o1 pk1 = (w1, false, [ev_delete pk1])).
  { unfold outpin_push. rewrite (pin_pipe_null _ _ _ Hi Hr). reflexivity. }
  rewrite Hun. simpl. repeat split.
  revert Hacc Hinc. unfold outpin_push.
  destruct (pin_pipe w2 o2) as [[r2 p2]|]; simpl.
  - destruct (pipe_push p2 pk2) as [p' [|]]; simpl.
    + destruct (pipe_output p') as [j|]; simpl; [reflexivity|].
      intros _ Hinc. rewrite !elem_of_cons, elem_of_nil in Hinc.
      intuition discriminate.
    + intros Hacc _. rewrite !elem_of_cons, elem_of_nil in Hacc.
      intuition discriminate.
  - intros Hacc _. rewrite !elem_of_cons, elem_of_nil in Hacc.
    intuition discriminate.
Qed.

Lemma push_unconnected_same_as_delivered_witness :
  d_pipe_cr_sp (mk_pin "B" None outpin) = None /\
  ev_incoming 1%nat ∈ (outpin_push (w_AX 0 0) 0%nat pk0).2 /\
  (outpin_push (w_AX 0 0) 3%nat pk1).1.2 = false /\
  (outpin_push (w_AX 0 0) 0%nat pk0).1.2 = (outpin_push (w_AX 0 0) 3%nat pk1).1.2.
Proof.
  assert (H1 : ev_pipe_push 0%nat true ∈ (outpin_push (w_AX 0 0) 0%nat pk0).2).
  { apply list_elem_of_In. vm_compute. tauto. }
  assert (H2 : ev_incoming 1%nat ∈ (outpin_push (w_AX 0 0) 0%nat pk0).2).
  { apply list_elem_of_In. vm_compute. tauto. }
  destruct (push_unconnected_same_as_delivered (w_AX 0 0) 3%nat
              (mk_pin "B" None outpin) pk1 (w_AX 0 0) 0%nat pk0 0%nat 1%nat
              eq_refl eq_refl H1 H2) as (Ha & Hb & _).
  repeat split; assumption.
Defined.

(** ** pin::connect *)

(** C5: connecting to an inpin that already owns a pipe should apply a
    non-zero [max_weight] to the weight cap.  X owns the pipe from A with
    both caps 0; connecting B to X with [max_length = 2] and
    [max_weight = 7] attaches B and renames the pipe, but both values go
    through [cap_length] and none through [cap_weight]: the length cap
    ends up 7 and the weight cap stays 0. *)
Theorem connect_reuse_weight_sets_length_cap :
  match outpin_connect (w_AX 0 0) 3%nat 1%nat 2 7 with
  | Some (w', evs) =>
      (d_pipe_cr_sp <$> pins w' !! 3%nat) = Some (Some 0%nat) /\
      (d_pipe_cr_sp <$> pins w' !! 1%nat) = Some (Some 0%nat) /\
      pipes w' !! 0%nat =
        Some (mk_pipe "B_to_X" [] (Some 0%nat) (Some 1%nat) 7 0)
  | None => False
  end.
Proof. vm_compute. repeat split. Qed.

(** *** The pin and pipe invariant *)

Lemma world_inv_except a w : world_inv w -> inv_except a w.
Proof. intros [H1 H2]. split; [|exact H2]. intros i pn Hi _. eauto. Qed.

Lemma direction_in_class pn :
  direction pn = dir_in -> exists n, class pn = inpin n.
Proof. unfold direction. destruct (class pn); [eauto|discriminate]. Qed.

Lemma class_outpin_direction pn : class pn = outpin -> direction pn = dir_out.
Proof. unfold direction. intros ->. reflexivity. Qed.

Lemma pins_set_pipe_ref w i r j :
  pins (set_pipe_ref w i r) !! j =
    if decide (i = j) then with_pipe_ref r <$> pins w !! i else pins w !! j.
Proof. unfold set_pipe_ref. simpl. apply lookup_alter. Qed.

Lemma disconnect_input_of_live_world w other :
  (disconnect_input_of_live w other).1 =
    match input_of_pipe_of w other with
    | Some q => pin_disconnect w q
    | None => w
    end.
Proof.
  unfold disconnect_input_of_live, input_of_pipe_of.
  destruct (pin_pipe w other) as [[r p]|]; simpl; [|reflexivity].
  destruct (pipe_input p); reflexivity.
Qed.

Lemma disconnect_input_of_live_pipes w other :
  pipes (disconnect_input_of_live w other).1 = pipes w.
Proof.
  rewrite disconnect_input_of_live_world.
  destruct (input_of_pipe_of w other); reflexivity.
Qed.

Lemma disconnect_input_of_live_pins w other j :
  pins (disconnect_input_of_live w other).1 !! j =
    if decide (input_of_pipe_of w other = Some j)
    then with_pipe_ref None <$> pins w !! j
    else pins w !! j.
Proof.
  rewrite disconnect_input_of_live_world.
  destruct (input_of_pipe_of w other) as [q|].
  - unfold pin_disconnect. rewrite pins_set_pipe_ref.
    destruct (decide (q = j)) as [->|Hne].
    + rewrite decide_True by reflexivity. reflexivity.
    + rewrite decide_False by congruence. reflexivity.
  - rewrite decide_False by discriminate. reflexivity.
Qed.

(** The pin disconnected by the first block is an outpin. *)
Lemma input_of_pipe_of_outpin w other q :
  pipes_typed w -> input_of_pipe_of w other = Some q ->
  exists pn, pins w !! q = Some pn /\ class pn = outpin.
Proof.
  intros Hty. unfold input_of_pipe_of, pin_pipe.
  destruct (pins w !! other) as [pn|]; simpl; [|discriminate].
  destruct (d_pipe_cr_sp pn) as [r|]; simpl; [|discriminate].
  destruct (pipes w !! r) as [p|] eqn:Hp; simpl; [|discriminate].
  intros Hq. eapply Hty; eauto.
Qed.

Lemma disconnect_input_of_live_events w other :
  (disconnect_input_of_live w other).2 =
    match pin_pipe w other with
    | Some (r, p) =>
        match pipe_input p with
        | Some q => [ev_access r; ev_disconnect q; ev_release r]
        | None => [ev_access r; ev_release r]
        end
    | None => []
    end.
Proof.
  unfold disconnect_input_of_live.
  destruct (pin_pipe w other) as [[r p]|]; [|reflexivity].
  destruct (pipe_input p); reflexivity.
Qed.

Lemma new_pipe_ptr_fresh w : pipes w !! new_pipe_ptr w = None.
Proof. apply not_elem_of_dom. unfold new_pipe_ptr. apply is_fresh. Qed.

(** The first block keeps every pin, its name and its class; it clears at
    most the pipe reference of the disconnected pin. *)
Lemma disconnect_input_of_live_keeps w other j pn :
  pins w !! j = Some pn ->
  exists pn', pins (disconnect_input_of_live w other).1 !! j = Some pn' /\
    class pn' = class pn /\ pin_name pn' = pin_name pn /\
    (d_pipe_cr_sp pn' = d_pipe_cr_sp pn \/ d_pipe_cr_sp pn' = None).
Proof.
  intros Hj. rewrite disconnect_input_of_live_pins, Hj.
  destruct (decide _); simpl; eexists; (split; [reflexivity|]); simpl; auto.
Qed.

Lemma disconnect_input_of_live_inpin w other j pn :
  pipes_typed w -> pins w !! j = Some pn -> direction pn = dir_in ->
  pins (disconnect_input_of_live w other).1 !! j = Some pn.
Proof.
  intros Hty Hj Hdir. rewrite disconnect_input_of_live_pins.
  destruct (decide _) as [Hq|]; [|exact Hj].
  destruct (input_of_pipe_of_outpin _ _ _ Hty Hq) as (pn' & Hj' & Hcl).
  rewrite Hj in Hj'. injection Hj' as <-.
  apply class_outpin_direction in Hcl. congruence.
Qed.

Lemma reuse_caps_ends p name_r ml mw :
  pipe_input (reuse_caps (pipe_rename p name_r) ml mw) = pipe_input p /\
  pipe_output (reuse_caps (pipe_rename p name_r) ml mw) = pipe_output p.
Proof.
  unfold reuse_caps. destruct (ml =? 0), (mw =? 0); split; reflexivity.
Qed.

(** On the reuse path a non-zero [max_weight] ends up as the length cap
    and the weight cap keeps its old value. *)
Lemma reuse_caps_weight p ml mw :
  mw <> 0 ->
  d_max_length (reuse_caps p ml mw) = mw /\
  d_max_weight (reuse_caps p ml mw) = d_max_weight p.
Proof.
  intros Hmw. unfold reuse_caps.
  destruct (N.eqb_spec mw 0) as [|_]; [contradiction|].
  destruct (ml =? 0); split; reflexivity.
Qed.

Lemma disconnect_input_of_defined w other :
  ~ drops_last_reference w other ->
  disconnect_input_of w other = Some (disconnect_input_of_live w other).
Proof. intros H. unfold disconnect_input_of. apply decide_False, H. Qed.

Lemma disconnect_input_of_Some w other x :
  disconnect_input_of w other = Some x ->
  x = disconnect_input_of_live w other /\ ~ drops_last_reference w other.
Proof.
  unfold disconnect_input_of. destruct (decide _); [discriminate|].
  intros [= <-]. auto.
Qed.

(** An outpin that holds no pipe, or shares its pipe, can be connected. *)
Lemma not_last_holder_defined w other :
  not_last_holder w other -> ~ drops_last_reference w other.
Proof.
  intros Hshare. unfold drops_last_reference.
  destruct (pin_pipe w other) as [[r p]|] eqn:Hpp; [|tauto].
  destruct (pipe_input p) as [q|]; [|tauto].
  intros [Hq Honly].
  assert (Ho : pin_ref w other = Some r).
  { unfold pin_pipe, pin_ref in *.
    destruct (pins w !! other) as [pn|]; simpl in *; [|discriminate].
    destruct (d_pipe_cr_sp pn) as [r0|]; simpl in *; [|discriminate].
    destruct (pipes w !! r0); simpl in *; [|discriminate].
    injection Hpp as <- _. reflexivity. }
  assert (Hall : forall j, pin_ref w j = Some r -> j = q).
  { intros j Hj. unfold pin_ref in Hj.
    destruct (pins w !! j) as [pn|] eqn:Hpn; simpl in Hj; [|discriminate].
    exact (Honly j pn Hpn Hj). }
  destruct (Hshare r Ho) as (j & Hne & Hj).
  apply Hne. rewrite (Hall j Hj), (Hall other Ho). reflexivity.
Qed.

(** [pin::connect] on an inpin without a pipe: a new pipe between the two
    pins, and the invariant holds afterwards even if it did not hold at
    the outpin before. *)
Lemma pin_connect_new w this other tp op ml mw :
  inv_except other w -> ~ drops_last_reference w other ->
  pins w !! this = Some tp -> pins w !! other = Some op ->
  direction tp = dir_in -> class op = outpin -> d_pipe_cr_sp tp = None ->
  exists w',
    pin_connect w this other ml mw = Some (w', (disconnect_input_of_live w other).2) /\
    pipes w' = <[new_pipe_ptr w := pipe_new (pipe_label op tp) other this ml mw]> (pipes w) /\
    pins w' !! other = Some (with_pipe_ref (Some (new_pipe_ptr w)) op) /\
    pins w' !! this = Some (with_pipe_ref (Some (new_pipe_ptr w)) tp) /\
    (forall j, j <> this -> j <> other ->
       pins w' !! j = pins (disconnect_input_of_live w other).1 !! j) /\
    world_inv w'.
Proof.
  intros [Hpins Hty] Hdef Hthis Hother Hdir Hcl Hnull.
  assert (Hne : this <> other).
  { intros ->. rewrite Hthis in Hother. injection Hother as ->.
    apply class_outpin_direction in Hcl. congruence. }
  pose proof (disconnect_input_of_live_inpin w other this tp Hty Hthis Hdir) as Hthis1.
  pose proof (disconnect_input_of_live_pipes w other) as Hpipes1.
  destruct (disconnect_input_of_live_keeps w other other op Hother)
    as (op1 & Hother1 & Hcl1 & Hnm1 & _).
  pose proof (disconnect_input_of_live_keeps w other) as Hkeep.
  pose proof (disconnect_input_of_live_pins w other) as Hpins1.
  unfold pin_connect. rewrite Hthis, Hother. simpl.
  rewrite decide_True by (split; [exact Hdir | apply class_outpin_direction, Hcl]).
  rewrite (disconnect_input_of_defined w other Hdef). cbn [mbind option_bind].
  destruct (disconnect_input_of_live w other) as [w1 e1]. simpl in *.
  rewrite (pin_pipe_null _ _ _ Hthis1 Hnull).
  assert (Hr : new_pipe_ptr w1 = new_pipe_ptr w).
  { unfold new_pipe_ptr. rewrite Hpipes1. reflexivity. }
  rewrite Hr. set (r := new_pipe_ptr w). set (pnew := pipe_new _ _ _ _ _).
  pose proof (new_pipe_ptr_fresh w) as Hfresh. fold r in Hfresh.
  eexists. split; [reflexivity|].
  assert (Ho' : pins (set_pipe_ref (set_pipe_ref (set_pipe w1 r pnew) this (Some r))
                        other (Some r)) !! other
                = Some (with_pipe_ref (Some r) op)).
  { rewrite pins_set_pipe_ref, decide_True by reflexivity.
    rewrite pins_set_pipe_ref, decide_False by exact Hne. simpl.
    rewrite Hother1. simpl. unfold with_pipe_ref. simpl.
    rewrite Hcl1, Hnm1. reflexivity. }
  assert (Ht' : pins (set_pipe_ref (set_pipe_ref (set_pipe w1 r pnew) this (Some r))
                        other (Some r)) !! this
                = Some (with_pipe_ref (Some r) tp)).
  { rewrite pins_set_pipe_ref, decide_False by congruence.
    rewrite pins_set_pipe_ref, decide_True by reflexivity. simpl.
    rewrite Hthis1. reflexivity. }
  assert (Hj' : forall j, j <> this -> j <> other ->
                pins (set_pipe_ref (set_pipe_ref (set_pipe w1 r pnew) this (Some r))
                        other (Some r)) !! j = pins w1 !! j).
  { intros j Hjt Hjo.
    rewrite pins_set_pipe_ref, decide_False by congruence.
    rewrite pins_set_pipe_ref, decide_False by congruence. reflexivity. }
  split; [simpl; rewrite Hpipes1; reflexivity|].
  split; [exact Ho'|]. split; [exact Ht'|]. split; [exact Hj'|].
  split.
  - intros i pn Hi r0 Hr0. simpl. rewrite Hpipes1.
    destruct (decide (i = other)) as [->|Hio].
    { rewrite Ho' in Hi. injection Hi as <-. simpl in Hr0.
      injection Hr0 as <-. exists pnew. rewrite lookup_insert_eq.
      simpl. rewrite Hcl. split; reflexivity. }
    destruct (decide (i = this)) as [->|Hit].
    { rewrite Ht' in Hi. injection Hi as <-. simpl in Hr0.
      injection Hr0 as <-. exists pnew. rewrite lookup_insert_eq.
      simpl. destruct (direction_in_class _ Hdir) as [n ->].
      split; reflexivity. }
    rewrite (Hj' i Hit Hio), Hpins1 in Hi.
    destruct (decide _).
    + destruct (pins w !! i); simpl in Hi; [|discriminate].
      injection Hi as <-. discriminate.
    + destruct (Hpins i pn Hi Hio r0 Hr0) as (p & Hp & Hend).
      exists p. split; [|exact Hend].
      rewrite lookup_insert_ne; [exact Hp|]. intros <-. congruence.
  - intros r0 p q Hp Hq. simpl in Hp. rewrite Hpipes1 in Hp.
    assert (Hq0 : exists pn, pins w !! q = Some pn /\ class pn = outpin).
    { destruct (decide (r = r0)) as [<-|Hrr].
      - rewrite lookup_insert_eq in Hp. injection Hp as <-.
        simpl in Hq. injection Hq as <-. eauto.
      - rewrite lookup_insert_ne in Hp by exact Hrr. eapply Hty; eauto. }
    destruct Hq0 as (pn & Hpn & Hpcl).
    destruct (decide (q = other)) as [->|Hqo].
    { rewrite Ho'. eexists. split; [reflexivity|]. exact Hcl. }
    destruct (decide (q = this)) as [->|Hqt].
    { rewrite Hthis in Hpn. injection Hpn as <-.
      apply class_outpin_direction in Hpcl. congruence. }
    rewrite (Hj' q Hqt Hqo).
    destruct (Hkeep q pn Hpn) as (pn' & Hpn' & Hc' & _).
    exists pn'. split; [exact Hpn'|congruence].
Qed.

(** [pin::connect] on an inpin that owns a pipe: the outpin takes that
    pipe; the pipe keeps the ends it recorded, so the invariant is only
    known to hold away from the outpin. *)
Lemma pin_connect_reuse w this other tp op rX ml mw :
  inv_except other w -> ~ drops_last_reference w other ->
  pins w !! this = Some tp -> pins w !! other = Some op ->
  direction tp = dir_in -> class op = outpin -> d_pipe_cr_sp tp = Some rX ->
  exists w' pX,
    pipes w !! rX = Some pX /\
    pin_connect w this other ml mw =
      Some (w', (disconnect_input_of_live w other).2 ++ [ev_access rX; ev_release rX]) /\
    pipes w' = <[rX := reuse_caps (pipe_rename pX (pipe_label op tp)) ml mw]> (pipes w) /\
    pins w' !! other = Some (with_pipe_ref (Some rX) op) /\
    (forall j, j <> other ->
       pins w' !! j = pins (disconnect_input_of_live w other).1 !! j) /\
    inv_except other w'.
Proof.
  intros [Hpins Hty] Hdef Hthis Hother Hdir Hcl HrX.
  assert (Hne : this <> other).
  { intros ->. rewrite Hthis in Hother. injection Hother as ->.
    apply class_outpin_direction in Hcl. congruence. }
  destruct (Hpins this tp Hthis Hne rX HrX) as (pX & HpX & _).
  pose proof (disconnect_input_of_live_inpin w other this tp Hty Hthis Hdir) as Hthis1.
  pose proof (disconnect_input_of_live_pipes w other) as Hpipes1.
  destruct (disconnect_input_of_live_keeps w other other op Hother)
    as (op1 & Hother1 & Hcl1 & Hnm1 & _).
  pose proof (disconnect_input_of_live_keeps w other) as Hkeep.
  pose proof (disconnect_input_of_live_pins w other) as Hpins1.
  unfold pin_connect. rewrite Hthis, Hother. simpl.
  rewrite decide_True by (split; [exact Hdir | apply class_outpin_direction, Hcl]).
  rewrite (disconnect_input_of_defined w other Hdef). cbn [mbind option_bind].
  destruct (disconnect_input_of_live w other) as [w1 e1]. simpl in *.
  rewrite <- Hpipes1 in HpX.
  rewrite (pin_pipe_Some _ _ _ _ _ Hthis1 HrX HpX).
  rewrite Hpipes1 in HpX.
  fold (reuse_caps (pipe_rename pX (pipe_label op tp)) ml mw).
  set (p3 := reuse_caps _ _ _).
  exists (set_pipe (set_pipe_ref w1 other (Some rX)) rX p3), pX.
  assert (Ho' : pins (set_pipe (set_pipe_ref w1 other (Some rX)) rX p3) !! other
                = Some (with_pipe_ref (Some rX) op)).
  { simpl. rewrite lookup_alter_eq, Hother1. simpl. unfold with_pipe_ref.
    simpl. rewrite Hcl1, Hnm1. reflexivity. }
  assert (Hj' : forall j, j <> other ->
             pins (set_pipe (set_pipe_ref w1 other (Some rX)) rX p3) !! j
             = pins w1 !! j).
  { intros j Hjo. simpl. rewrite lookup_alter_ne by congruence. reflexivity. }
  destruct (reuse_caps_ends pX (pipe_label op tp) ml mw) as [Hin3 Hout3].
  fold p3 in Hin3, Hout3.
  split; [exact HpX|]. split; [reflexivity|].
  split; [simpl; rewrite Hpipes1; reflexivity|].
  split; [exact Ho'|]. split; [exact Hj'|].
  split.
  - intros i pn Hi Hio r0 Hr0. simpl. rewrite Hpipes1.
    rewrite (Hj' i Hio), Hpins1 in Hi.
    destruct (decide _).
    + destruct (pins w !! i); simpl in Hi; [|discriminate].
      injection Hi as <-. discriminate.
    + destruct (Hpins i pn Hi Hio r0 Hr0) as (p & Hp & Hend).
      destruct (decide (rX = r0)) as [<-|Hrr].
      * exists p3. rewrite lookup_insert_eq. split; [reflexivity|].
        rewrite HpX in Hp. injection Hp as <-.
        rewrite Hin3, Hout3. exact Hend.
      * exists p. rewrite lookup_insert_ne by exact Hrr. auto.
  - intros r0 p q Hp Hq. simpl in Hp. rewrite Hpipes1 in Hp.
    assert (Hq0 : exists pn, pins w !! q = Some pn /\ class pn = outpin).
    { destruct (decide (rX = r0)) as [<-|Hrr].
      - rewrite lookup_insert_eq in Hp. injection Hp as <-.
        rewrite Hin3 in Hq. eapply Hty; eauto.
      - rewrite lookup_insert_ne in Hp by exact Hrr. eapply Hty; eauto. }
    destruct Hq0 as (pn & Hpn & Hpcl).
    destruct (decide (q = other)) as [->|Hqo].
    { rewrite Ho'. eexists. split; [reflexivity|]. exact Hcl. }
    rewrite (Hj' q Hqo).
    destruct (Hkeep q pn Hpn) as (pn' & Hpn' & Hc' & _).
    exists pn'. split; [exact Hpn'|congruence].
Qed.

(** Either way the two pins share a pipe afterwards. *)
Lemma pin_connect_any w this other tp op ml mw :
  inv_except other w -> ~ drops_last_reference w other ->
  pins w !! this = Some tp -> pins w !! other = Some op ->
  direction tp = dir_in -> class op = outpin ->
  exists w' e r p tp',
    pin_connect w this other ml mw = Some (w', e) /\
    inv_except other w' /\
    pins w' !! other = Some (with_pipe_ref (Some r) op) /\
    pins w' !! this = Some tp' /\ d_pipe_cr_sp tp' = Some r /\
    class tp' = class tp /\
    pipes w' !! r = Some p /\
    (d_pipe_cr_sp tp = None -> pipe_input p = Some other) /\
    (forall j, j <> this -> j <> other ->
       pins w' !! j = pins (disconnect_input_of_live w other).1 !! j).
Proof.
  intros Hinv Hdef Hthis Hother Hdir Hcl.
  destruct (d_pipe_cr_sp tp) as [rX|] eqn:Href.
  - destruct (pin_connect_reuse w this other tp op rX ml mw Hinv Hdef Hthis Hother
                Hdir Hcl Href) as (w' & pX & HpX & Hc & Hpipes & Ho & Hj & Hinv').
    assert (Hne : this <> other).
    { intros ->. rewrite Hthis in Hother. injection Hother as ->.
      apply class_outpin_direction in Hcl. congruence. }
    eexists w', _, rX, (reuse_caps (pipe_rename pX (pipe_label op tp)) ml mw), tp.
    split; [exact Hc|]. split; [exact Hinv'|]. split; [exact Ho|].
    split.
    { rewrite (Hj this Hne).
      apply disconnect_input_of_live_inpin; [apply Hinv|exact Hthis|exact Hdir]. }
    split; [exact Href|]. split; [reflexivity|].
    split; [rewrite Hpipes; apply lookup_insert_eq|].
    split; [discriminate|]. intros j _ Hjo. apply Hj, Hjo.
  - destruct (pin_connect_new w this other tp op ml mw Hinv Hdef Hthis Hother
                Hdir Hcl Href) as (w' & Hc & Hpipes & Ho & Ht & Hj & Hinv').
    eexists w', _, (new_pipe_ptr w),
      (pipe_new (pipe_label op tp) other this ml mw),
      (with_pipe_ref (Some (new_pipe_ptr w)) tp).
    split; [exact Hc|]. split; [apply world_inv_except, Hinv'|].
    split; [exact Ho|]. split; [exact Ht|].
    split; [reflexivity|]. split; [reflexivity|].
    split; [rewrite Hpipes; apply lookup_insert_eq|].
    split; [reflexivity|]. exact Hj.
Qed.

Lemma input_of_pipe_of_eq w i pn r p :
  pins w !! i = Some pn -> d_pipe_cr_sp pn = Some r -> pipes w !! r = Some p ->
  input_of_pipe_of w i = pipe_input p.
Proof.
  intros Hi Hr Hp. unfold input_of_pipe_of.
  rewrite (pin_pipe_Some _ _ _ _ _ Hi Hr Hp). reflexivity.
Qed.

(** C4: an outpin A that is not the last holder of a pipe is connected to
    an inpin X and then to another inpin Y, neither of which holds a
    pipe.  Both connects complete.  The first makes one new pipe with
    ends A and X, held by both.  The second calls [disconnect()] on the
    pin recorded as [input()] of that pipe, which is A, and not on X.
    Afterwards A and Y hold one new pipe with ends A and Y that no other
    pin holds, X still holds the pipe it shared with A, unchanged and
    held by no other pin, and every pin's pipe records that pin as its
    end. *)
Theorem connect_steal w A X Y pA pX pY ml1 mw1 ml2 mw2 :
  world_inv w ->
  pins w !! A = Some pA -> class pA = outpin -> not_last_holder w A ->
  pins w !! X = Some pX -> direction pX = dir_in -> d_pipe_cr_sp pX = None ->
  pins w !! Y = Some pY -> direction pY = dir_in -> d_pipe_cr_sp pY = None ->
  X <> Y ->
  exists w1 e1 w2 r1 r2,
    outpin_connect w A X ml1 mw1 = Some (w1, e1) /\
    pin_ref w1 A = Some r1 /\ pin_ref w1 X = Some r1 /\
    pipes w1 !! r1 = Some (pipe_new (pipe_label pA pX) A X ml1 mw1) /\
    outpin_connect w1 A Y ml2 mw2 =
      Some (w2, [ev_access r1; ev_disconnect A; ev_release r1]) /\
    pin_ref w2 A = Some r2 /\ pin_ref w2 Y = Some r2 /\ r1 <> r2 /\
    pipes w2 !! r2 = Some (pipe_new (pipe_label pA pY) A Y ml2 mw2) /\
    (forall j, pin_ref w2 j = Some r2 -> j = A \/ j = Y) /\
    pin_ref w2 X = Some r1 /\
    pipes w2 !! r1 = pipes w1 !! r1 /\
    (forall j, pin_ref w2 j = Some r1 -> j = X) /\
    world_inv w2.
Proof.
  intros Hinv HA HclA HshA HX HdirX HnullX HY HdirY HnullY HXY.
  assert (HAX : X <> A).
  { intros ->. rewrite HX in HA. injection HA as ->.
    apply class_outpin_direction in HclA. congruence. }
  assert (HAY : Y <> A).
  { intros ->. rewrite HY in HA. injection HA as ->.
    apply class_outpin_direction in HclA. congruence. }
  destruct (pin_connect_new w X A pX pA ml1 mw1 (world_inv_except A w Hinv)
              (not_last_holder_defined w A HshA) HX HA HdirX HclA HnullX)
    as (w1 & Hc1 & Hpipes1 & HA1 & HX1 & Hj1 & Hinv1).
  pose proof (new_pipe_ptr_fresh w) as Hfresh1.
  set (r1 := new_pipe_ptr w) in *.
  set (p1 := pipe_new (pipe_label pA pX) A X ml1 mw1) in *.
  assert (Hp1 : pipes w1 !! r1 = Some p1).
  { rewrite Hpipes1. apply lookup_insert_eq. }
  assert (HY1 : pins w1 !! Y = Some pY).
  { rewrite (Hj1 Y) by congruence.
    apply disconnect_input_of_live_inpin; [apply Hinv|exact HY|exact HdirY]. }
  assert (Href1 : forall j, j <> X -> j <> A -> pin_ref w1 j <> Some r1).
  { intros j HjX HjA Hj. unfold pin_ref in Hj.
    rewrite (Hj1 j HjX HjA), disconnect_input_of_live_pins in Hj.
    destruct (decide _).
    - destruct (pins w !! j); discriminate.
    - destruct (pins w !! j) as [pn|] eqn:Hpn; [|discriminate].
      simpl in Hj. destruct (proj1 Hinv j pn Hpn r1 Hj) as (p & Hp & _).
      congruence. }
  assert (Hdef2 : not_last_holder w1 A).
  { intros r Hr. exists X. split; [exact HAX|].
    unfold pin_ref in *. rewrite HA1 in Hr. rewrite HX1. simpl in *.
    congruence. }
  destruct (pin_connect_new w1 Y A pY (with_pipe_ref (Some r1) pA) ml2 mw2
              (world_inv_except A w1 Hinv1) (not_last_holder_defined w1 A Hdef2)
              HY1 HA1 HdirY HclA HnullY)
    as (w2 & Hc2 & Hpipes2 & HA2 & HY2 & Hj2 & Hinv2).
  pose proof (new_pipe_ptr_fresh w1) as Hfresh2.
  set (r2 := new_pipe_ptr w1) in *.
  assert (Hr12 : r1 <> r2) by (intros Heq; rewrite <- Heq in Hfresh2; congruence).
  assert (He2 : (disconnect_input_of_live w1 A).2 =
                [ev_access r1; ev_disconnect A; ev_release r1]).
  { rewrite disconnect_input_of_live_events.
    rewrite (pin_pipe_Some _ _ _ r1 p1 HA1 eq_refl Hp1). reflexivity. }
  assert (HdirX1 : direction (with_pipe_ref (Some r1) pX) = dir_in) by exact HdirX.
  assert (HX2 : pins w2 !! X = Some (with_pipe_ref (Some r1) pX)).
  { rewrite (Hj2 X) by congruence.
    apply disconnect_input_of_live_inpin; [apply Hinv1|exact HX1|exact HdirX1]. }
  rewrite He2 in Hc2.
  eexists w1, _, w2, r1, r2.
  split; [exact Hc1|].
  split; [unfold pin_ref; rewrite HA1; reflexivity|].
  split; [unfold pin_ref; rewrite HX1; reflexivity|].
  split; [exact Hp1|].
  split; [exact Hc2|].
  split; [unfold pin_ref; rewrite HA2; reflexivity|].
  split; [unfold pin_ref; rewrite HY2; reflexivity|].
  split; [exact Hr12|].
  split; [rewrite Hpipes2; apply lookup_insert_eq|].
  assert (Hother2 : forall j r, j <> A -> j <> Y -> pin_ref w2 j = Some r ->
                    pin_ref w1 j = Some r).
  { intros j r HjA HjY Hj. unfold pin_ref in *.
    rewrite (Hj2 j HjY HjA), disconnect_input_of_live_pins in Hj.
    destruct (decide _); [|exact Hj].
    destruct (pins w1 !! j); discriminate. }
  split.
  { intros j Hj.
    destruct (decide (j = A)) as [|HjA]; [auto|].
    destruct (decide (j = Y)) as [|HjY]; [auto|]. exfalso.
    apply (Hother2 j r2 HjA HjY) in Hj. unfold pin_ref in Hj.
    destruct (pins w1 !! j) as [pn|] eqn:Hpn; [|discriminate].
    destruct (proj1 Hinv1 j pn Hpn r2 Hj) as (p & Hp & _). congruence. }
  split; [unfold pin_ref; rewrite HX2; reflexivity|].
  split; [rewrite Hpipes2; apply lookup_insert_ne; congruence|].
  split; [|exact Hinv2].
  intros j Hj.
  destruct (decide (j = X)) as [|HjX]; [assumption|exfalso].
  destruct (decide (j = A)) as [->|HjA].
  { unfold pin_ref in Hj. rewrite HA2 in Hj. simpl in Hj. congruence. }
  destruct (decide (j = Y)) as [->|HjY].
  { unfold pin_ref in Hj. rewrite HY2 in Hj. simpl in Hj. congruence. }
  exact (Href1 j HjX HjA (Hother2 j r1 HjA HjY Hj)).
Qed.

Lemma w_fresh_inv : world_inv w_fresh.
Proof.
  split.
  - intros i pn Hi r Hr. unfold w_fresh in Hi. simpl in Hi.
    repeat (rewrite lookup_insert in Hi;
            destruct (decide _); [injection Hi as <-; discriminate|]).
    rewrite lookup_empty in Hi. discriminate.
  - intros r p q Hp. unfold w_fresh in Hp. simpl in Hp.
    rewrite lookup_empty in Hp. discriminate.
Qed.

(** An outpin without a pipe is nobody's last holder. *)
Lemma not_last_holder_null w o pn :
  pins w !! o = Some pn -> d_pipe_cr_sp pn = None -> not_last_holder w o.
Proof.
  intros Ho Hr r Href. unfold pin_ref in Href. rewrite Ho in Href.
  simpl in Href. congruence.
Qed.

Lemma connect_steal_witness :
  world_inv w_fresh /\ not_last_holder w_fresh 0%nat /\
  exists w1 e1 w2 r1 r2,
    outpin_connect w_fresh 0%nat 1%nat 0 0 = Some (w1, e1) /\
    pin_ref w1 0%nat = Some r1 /\ pin_ref w1 1%nat = Some r1 /\
    pipes w1 !! r1 = Some (pipe_new "A_to_X" 0%nat 1%nat 0 0) /\
    outpin_connect w1 0%nat 2%nat 0 0 =
      Some (w2, [ev_access r1; ev_disconnect 0%nat; ev_release r1]) /\
    pin_ref w2 0%nat = Some r2 /\ pin_ref w2 2%nat = Some r2 /\ r1 <> r2 /\
    pipes w2 !! r2 = Some (pipe_new "A_to_Y" 0%nat 2%nat 0 0) /\
    (forall j, pin_ref w2 j = Some r2 -> j = 0%nat \/ j = 2%nat) /\
    pin_ref w2 1%nat = Some r1 /\
    pipes w2 !! r1 = pipes w1 !! r1 /\
    (forall j, pin_ref w2 j = Some r1 -> j = 1%nat) /\
    world_inv w2.
Proof.
  split; [exact w_fresh_inv|].
  assert (Hsh : not_last_holder w_fresh 0%nat).
  { apply (not_last_holder_null w_fresh 0%nat (mk_pin "A" None outpin));
      reflexivity. }
  split; [exact Hsh|].
  apply (connect_steal w_fresh 0%nat 1%nat 2%nat
           (mk_pin "A" None outpin) (mk_pin "X" None (inpin 0%nat))
           (mk_pin "Y" None (inpin 0%nat)) 0 0 0 0);
    first [exact w_fresh_inv | exact Hsh | reflexivity | discriminate].
Defined.

Lemma w_AX_inv ml mw : world_inv (w_AX ml mw).
Proof.
  destruct (pin_connect_new w_fresh 1%nat 0%nat
              (mk_pin "X" None (inpin 0%nat)) (mk_pin "A" None outpin) ml mw
              (world_inv_except _ _ w_fresh_inv)
              (not_last_holder_defined _ _
                 (not_last_holder_null w_fresh 0%nat (mk_pin "A" None outpin)
                    eq_refl eq_refl))
              eq_refl eq_refl eq_refl
              eq_refl eq_refl) as (w' & Hc & _ & _ & _ & _ & Hinv).
  unfold w_AX, outpin_connect, inpin_connect. rewrite Hc. exact Hinv.
Qed.

Lemma w_BY_inv : world_inv w_BY.
Proof.
  destruct (pin_connect_new w_fresh 2%nat 3%nat
              (mk_pin "Y" None (inpin 0%nat)) (mk_pin "B" None outpin) 0 0
              (world_inv_except _ _ w_fresh_inv)
              (not_last_holder_defined _ _
                 (not_last_holder_null w_fresh 3%nat (mk_pin "B" None outpin)
                    eq_refl eq_refl))
              eq_refl eq_refl eq_refl
              eq_refl eq_refl) as (w' & Hc & _ & _ & _ & _ & Hinv).
  unfold w_BY, outpin_connect, inpin_connect. rewrite Hc. exact Hinv.
Qed.

(** C4, counterexample to "connect disconnects X and preserves the
    invariant": with B already connected to Y, connecting A to X and then
    A to Y calls [disconnect()] on A and not on X, which keeps its pipe;
    A ends on Y's old pipe, which still records B as its [input()] and
    which B still holds, so the invariant that held before is broken at
    A. *)
Lemma connect_steal_counterexample :
  world_inv w_BY /\
  match outpin_connect w_BY 0%nat 1%nat 0 0 with
  | Some (w1, _) =>
      match outpin_connect w1 0%nat 2%nat 0 0 with
      | Some (w2, e2) =>
          e2 = [ev_access 1%nat; ev_disconnect 0%nat; ev_release 1%nat;
                ev_access 0%nat; ev_release 0%nat] /\
          pin_ref w1 1%nat = Some 1%nat /\
          pin_ref w2 1%nat = Some 1%nat /\
          pin_ref w2 0%nat = Some 0%nat /\
          pin_ref w2 3%nat = Some 0%nat /\
          (pipe_input <$> pipes w2 !! 0%nat) = Some (Some 3%nat) /\
          ~ world_inv w2
      | None => False
      end
  | None => False
  end.
Proof.
  split; [exact w_BY_inv|].
  destruct (outpin_connect w_BY 0%nat 1%nat 0 0) as [[w1 e1]|] eqn:H1;
    [|vm_compute in H1; discriminate].
  destruct (outpin_connect w1 0%nat 2%nat 0 0) as [[w2 e2]|] eqn:H2;
    [|vm_compute in H1; injection H1 as <- <-; vm_compute in H2; discriminate].
  vm_compute in H1. injection H1 as <- <-.
  vm_compute in H2. injection H2 as <- <-.
  repeat (split; [reflexivity|]).
  intros [Hok _].
  destruct (Hok 0%nat (mk_pin "A" (Some 0%nat) outpin) eq_refl 0%nat eq_refl)
    as (p & Hp & Hend).
  vm_compute in Hp. injection Hp as <-. discriminate Hend.
Qed.

(** ** The execution loops *)

Lemma state_of_set_monitor w n s : state_of (set_monitor w n s) n = s.
Proof. unfold state_of, set_monitor. simpl. rewrite lookup_insert_eq. reflexivity. Qed.

Lemma state_of_set_monitor_ne w n m s :
  n <> m -> state_of (set_monitor w n s) m = state_of w m.
Proof.
  intros Hne. unfold state_of, set_monitor. simpl.
  rewrite lookup_insert_ne by exact Hne. reflexivity.
Qed.

(** [incoming()] turns [started] into [incoming] and touches nothing
    else. *)
Lemma state_of_inpin_incoming w i n :
  state_of (inpin_incoming w i) n = state_of w n \/
  (state_of w n = started /\ state_of (inpin_incoming w i) n = incoming).
Proof.
  unfold inpin_incoming.
  destruct (pins w !! i) as [[nm rf [m|]]|]; auto.
  destruct (monitors w !! m) as [[]|] eqn:Hm; auto.
  destruct (decide (m = n)) as [->|Hne].
  - right. rewrite state_of_set_monitor. unfold state_of. rewrite Hm. auto.
  - left. apply state_of_set_monitor_ne, Hne.
Qed.

Lemma state_of_outpin_push w o pk n :
  state_of (outpin_push w o pk).1.1 n = state_of w n \/
  (state_of w n = started /\ state_of (outpin_push w o pk).1.1 n = incoming).
Proof.
  unfold outpin_push.
  destruct (pin_pipe w o) as [[r p]|]; simpl; auto.
  destruct (pipe_push p pk) as [p' acc].
  destruct (if acc then pipe_output p' else None) as [i|]; simpl; auto.
  apply (state_of_inpin_incoming (set_pipe w r p') i n).
Qed.

(** Requests other than [start()] and [stop()] on the node never make
    the predicate of the paused wait true. *)
Lemma wakes_paused_request this rq w :
  act_other rq <> act_other (req_start this) ->
  act_other rq <> act_other (req_stop this) ->
  wakes_paused (state_of w this) = false ->
  wakes_paused (state_of (request_apply rq w) this) = false.
Proof.
  intros Hstart Hstop Hw.
  destruct rq as [n|n|n|o pk]; simpl.
  - destruct (decide (n = this)) as [->|Hne]; [congruence|].
    unfold node_start. rewrite state_of_set_monitor_ne by exact Hne. exact Hw.
  - destruct (decide (n = this)) as [->|Hne].
    + unfold node_pause. rewrite state_of_set_monitor. reflexivity.
    + unfold node_pause. rewrite state_of_set_monitor_ne by exact Hne. exact Hw.
  - destruct (decide (n = this)) as [->|Hne]; [congruence|].
    unfold node_stop. rewrite state_of_set_monitor_ne by exact Hne. exact Hw.
  - destruct (state_of_outpin_push w o pk this) as [->|[_ ->]];
      [exact Hw|reflexivity].
Qed.

(** While the predicate of its wait is false, the paused producer stays
    where it is and calls nothing. *)
Lemma producer_stays_blocked produce this sched : forall w,
  no_start_stop this sched ->
  wakes_paused (state_of w this) = false ->
  let '(t', w', evs) :=
    exec (producer_step produce this) sched (mk_producer p_observe paused) w in
  t' = mk_producer p_observe paused /\ evs = [] /\
  wakes_paused (state_of w' this) = false.
Proof.
  induction sched as [|a sched IH]; intros w Hs Hw; cbn [exec].
  - auto.
  - inversion Hs as [|? ? [Ha1 Ha2] Hs']; subst.
    destruct a as [|rq].
    + unfold producer_step at 1. cbn [p_at p_s].
      rewrite decide_True by reflexivity. rewrite Hw. apply IH; assumption.
    + apply IH; [assumption|]. apply wakes_paused_request; assumption.
Qed.

(** One iteration of the producer's loop, from the [while] test round to
    the next one, when the thread does not have to wait. *)
Lemma producer_iteration produce this s w :
  s <> stop_requested ->
  (s = paused -> wakes_paused (state_of w this) = true) ->
  run (producer_step produce this) 4 (mk_producer p_while s) w =
    (Running,
     mk_producer p_while (settled (state_of w this)),
     (if decide (settled (state_of w this) = started)
      then produce (producer_settle this (state_of w this) w)
      else producer_settle this (state_of w this) w),
     (if decide (settled (state_of w this) = started) then [ev_produce] else [])).
Proof.
  intros Hs Hwake.
  destruct (decide (s = paused)) as [->|Hp].
  - specialize (Hwake eq_refl). cbn [run].
    unfold producer_step at 1. cbn [p_at p_s].
    rewrite decide_False by discriminate.
    unfold producer_step at 1. cbn [p_at p_s].
    rewrite decide_True by reflexivity. rewrite Hwake.
    destruct (state_of w this); try discriminate Hwake; reflexivity.
  - cbn [run]. unfold producer_step at 1. cbn [p_at p_s].
    rewrite decide_False by exact Hs.
    unfold producer_step at 1. cbn [p_at p_s].
    rewrite decide_False by exact Hp.
    destruct (state_of w this); reflexivity.
Qed.

(** Running for [n + m] actions is running for [n] and then for [m]. *)
Lemma run_add {T} (step : T -> world -> outcome T) n m : forall t w,
  run step (n + m) t w =
    match run step n t w with
    | (Running, t', w', evs) =>
        let '(st, t'', w'', evs') := run step m t' w' in
        (st, t'', w'', evs ++ evs')
    | halted => halted
    end.
Proof.
  induction n as [|n IH]; intros t w; cbn [run Nat.add].
  - destruct (run step m t w) as [[[st t'] w'] evs]. reflexivity.
  - destruct (step t w) as [t1 w1 e1| |]; [|reflexivity..].
    rewrite IH. destruct (run step n t1 w1) as [[[[] t'] w'] evs]; try reflexivity.
    destruct (run step m t' w') as [[[st t''] w''] evs'].
    rewrite app_assoc. reflexivity.
Qed.

Lemma wakes_paused_iff m :
  wakes_paused m = true <-> m = start_requested \/ m = stop_requested.
Proof. destruct m; unfold wakes_paused; simpl; intuition discriminate. Qed.

(** C6: the producer's loop.  On entry the monitor and the local state
    become [started].  The [while] test returns on [stop_requested] and
    goes on otherwise.  While paused the thread is suspended as long as
    the monitor is neither [start_requested] nor [stop_requested],
    whatever other threads do short of calling start() or stop().  An
    iteration reads the monitor, settles [pause_requested] to [paused] and
    [start_requested] to [started], and calls [produce()] once exactly
    when the settled state is [started].  Once [stop_requested] is read
    the loop returns without calling [produce()]. *)
Theorem producer_loop (produce : world -> world) (this : node_ptr) :
  let step := producer_step produce this in
  (forall s0 w,
     step (mk_producer p_entry s0) w =
       Stepped (mk_producer p_while started) (set_monitor w this started) [] /\
     state_of (set_monitor w this started) this = started) /\
  (forall w, step (mk_producer p_while stop_requested) w = Returned) /\
  (forall m, wakes_paused m = true <-> m = start_requested \/ m = stop_requested) /\
  (forall w,
     step (mk_producer p_observe paused) w =
       if wakes_paused (state_of w this)
       then Stepped (mk_producer p_settle (state_of w this)) w []
       else Blocked) /\
  (forall sched w,
     no_start_stop this sched -> wakes_paused (state_of w this) = false ->
     (exec step sched (mk_producer p_observe paused) w).1.1 =
       mk_producer p_observe paused /\
     (exec step sched (mk_producer p_observe paused) w).2 = []) /\
  (forall s w,
     s <> stop_requested ->
     (s = paused -> wakes_paused (state_of w this) = true) ->
     run step 4 (mk_producer p_while s) w =
       (Running,
        mk_producer p_while (settled (state_of w this)),
        (if decide (settled (state_of w this) = started)
         then produce (producer_settle this (state_of w this) w)
         else producer_settle this (state_of w this) w),
        (if decide (settled (state_of w this) = started)
         then [ev_produce] else []))) /\
  (forall s w,
     s <> stop_requested ->
     (s = paused -> wakes_paused (state_of w this) = true) ->
     state_of w this = stop_requested ->
     run step 5 (mk_producer p_while s) w =
       (Finished, mk_producer p_while stop_requested, w, [])).
Proof.
  intros step. subst step.
  split; [intros s0 w; split; [reflexivity|apply state_of_set_monitor]|].
  split; [reflexivity|].
  split; [exact wakes_paused_iff|].
  split; [reflexivity|].
  split.
  { intros sched w Hs Hw.
    pose proof (producer_stays_blocked produce this sched w Hs Hw) as H.
    destruct (exec _ _ _ _) as [[t' w'] evs]. simpl. tauto. }
  split; [apply producer_iteration|].
  intros s w Hs Hwake Hstop.
  change 5%nat with (4 + 1)%nat. rewrite run_add.
  rewrite (producer_iteration produce this s w Hs Hwake), Hstop.
  reflexivity.
Qed.

Lemma producer_loop_witness :
  started <> stop_requested /\
  run (producer_step (fun w => w) 0%nat) 4 (mk_producer p_while started) w_fresh =
    (Running, mk_producer p_while started, w_fresh, [ev_produce]).
Proof.
  split; [discriminate|].
  destruct (producer_loop (fun w => w) 0%nat) as (_ & _ & _ & _ & _ & Hiter & _).
  rewrite (Hiter started w_fresh); [reflexivity|discriminate|discriminate].
Defined.

(** From [c_scan i] the thread visits the remaining pins one by one and
    is back at the [while] test after one action per pin and one more. *)
Lemma consumer_scan_run ready this d_inputs s : forall l i w,
  drop i d_inputs = l ->
  run (consumer_step ready this d_inputs) (S (length l))
      (mk_consumer (c_scan i) s) w =
    (Running, mk_consumer c_while s, (scan_from ready i l w).1,
     ev_ready <$> (scan_from ready i l w).2).
Proof.
  induction l as [|x l IH]; intros i w Hdrop.
  - assert (Hi : d_inputs !! i = None).
    { apply lookup_ge_None. apply drop_nil_inv in Hdrop. lia. }
    cbn [run length]. unfold consumer_step at 1. cbn [c_at c_s].
    rewrite Hi. reflexivity.
  - assert (Hi : d_inputs !! i = Some x).
    { rewrite <- (Nat.add_0_r i), <- lookup_drop, Hdrop. reflexivity. }
    assert (Hdrop' : drop (S i) d_inputs = l).
    { rewrite (drop_S _ _ _ Hi) in Hdrop. injection Hdrop as ->. reflexivity. }
    change (S (length (x :: l))) with (S (S (length l))).
    cbn [run]. unfold consumer_step at 1. cbn [c_at c_s]. rewrite Hi.
    cbn [scan_from].
    destruct (inpin_peek w x).
    + specialize (IH (S i) (ready i w) Hdrop'). cbn [run] in IH. rewrite IH.
      destruct (scan_from ready (S i) l (ready i w)) as [w' called].
      reflexivity.
    + specialize (IH (S i) w Hdrop'). cbn [run] in IH. rewrite IH.
      reflexivity.
Qed.

(** [ready] is called with increasing indices, all of them indices of
    pins. *)
Lemma scan_from_sorted ready : forall l i w,
  StronglySorted lt (scan_from ready i l w).2 /\
  Forall (fun k => (i <= k < i + length l)%nat) (scan_from ready i l w).2.
Proof.
  induction l as [|x l IH]; intros i w; cbn [scan_from].
  - split; constructor.
  - destruct (inpin_peek w x).
    + destruct (IH (S i) (ready i w)) as [Hs Hf].
      destruct (scan_from ready (S i) l (ready i w)) as [w' called].
      simpl in *. split.
      * constructor; [exact Hs|].
        eapply Forall_impl; [exact Hf|]. simpl. intros k Hk. lia.
      * constructor; [lia|].
        eapply Forall_impl; [exact Hf|]. simpl. intros k Hk. lia.
    + destruct (IH (S i) w) as [Hs Hf]. split; [exact Hs|].
      eapply Forall_impl; [exact Hf|]. simpl. intros k Hk. lia.
Qed.

(** Two stores in which the pins peek the same give the same calls. *)
Lemma scan_from_same_peeks ready :
  (forall k w j, inpin_peek (ready k w) j = inpin_peek w j) ->
  forall l i w w',
    (forall j, inpin_peek w' j = inpin_peek w j) ->
    (scan_from ready i l w').2 = (scan_from ready i l w).2.
Proof.
  intros Hstable. induction l as [|y l IHl]; intros i w w' Hw';
    cbn [scan_from]; [reflexivity|].
  rewrite Hw'. destruct (inpin_peek w y).
  - specialize (IHl (S i) (ready i w) (ready i w')).
    destruct (scan_from ready (S i) l (ready i w)) as [a b].
    destruct (scan_from ready (S i) l (ready i w')) as [a' b'].
    simpl in *. f_equal. apply IHl. intros j. rewrite !Hstable. apply Hw'.
  - apply IHl. exact Hw'.
Qed.

(** When [ready] does not change what the pins peek, it is called for
    exactly the pins that peek non-empty when the scan starts. *)
Lemma scan_from_exact ready :
  (forall k w j, inpin_peek (ready k w) j = inpin_peek w j) ->
  forall l i w k,
    k ∈ (scan_from ready i l w).2 <->
    (i <= k)%nat /\ exists input_k, l !! (k - i)%nat = Some input_k /\
                       inpin_peek w input_k = true.
Proof.
  intros Hstable. induction l as [|x l IH]; intros i w k; cbn [scan_from].
  - simpl. rewrite elem_of_nil. split; [tauto|].
    intros (_ & y & Hy & _). discriminate.
  - assert (Hrest : k ∈ (scan_from ready (S i) l w).2 <->
                    (S i <= k)%nat /\ exists input_k,
                      (x :: l) !! (k - i)%nat = Some input_k /\
                      inpin_peek w input_k = true).
    { rewrite IH. split.
      - intros (Hle & y & Hy & Hpk). split; [exact Hle|]. exists y.
        replace (k - i)%nat with (S (k - S i)) by lia. auto.
      - intros (Hle & y & Hy & Hpk). split; [exact Hle|]. exists y.
        replace (k - i)%nat with (S (k - S i)) in Hy by lia. auto. }
    destruct (inpin_peek w x) eqn:Hx.
    + assert (Heq : (scan_from ready (S i) l (ready i w)).2 =
                    (scan_from ready (S i) l w).2).
      { apply scan_from_same_peeks; [exact Hstable|]. intros j. apply Hstable. }
      destruct (scan_from ready (S i) l (ready i w)) as [w' called].
      simpl in *. rewrite elem_of_cons, Heq, Hrest. split.
      * intros [->|(Hle & H)].
        -- split; [lia|]. exists x. rewrite Nat.sub_diag. auto.
        -- split; [lia|exact H].
      * intros (Hle & H). destruct (decide (k = i)) as [|Hne]; [auto|].
        right. split; [lia|exact H].
    + rewrite Hrest. split.
      * intros (Hle & H). split; [lia|exact H].
      * intros (Hle & y & Hy & Hpk). split; [|eauto].
        destruct (decide (k = i)) as [->|]; [|lia].
        rewrite Nat.sub_diag in Hy. simpl in Hy. congruence.
Qed.

(** C7: the consumer's scan.  The scan runs exactly when the state kept
    in [s] after settling is [incoming].  At pin [i] the thread calls
    [ready(i)] itself if the pin peeks non-empty and moves on to the next
    pin otherwise; it is never suspended there.  After reading
    [incoming] the thread settles the monitor to [started], visits every
    pin once in index order and is back at the [while] test; the calls of
    [ready] come with increasing pin indices, and, when [ready] leaves the
    pins' emptiness alone, they are the pins that peek non-empty. *)
Theorem consumer_scan (ready : nat -> world -> world) (this : node_ptr)
    (d_inputs : list pin_ptr) :
  let step := consumer_step ready this d_inputs in
  (forall s w,
     step (mk_consumer c_callback s) w =
       Stepped (mk_consumer (if decide (s = incoming) then c_scan 0 else c_while) s)
               w []) /\
  (forall i s w input_i,
     d_inputs !! i = Some input_i ->
     step (mk_consumer (c_scan i) s) w =
       if inpin_peek w input_i
       then Stepped (mk_consumer (c_scan (S i)) s) (ready i w) [ev_ready i]
       else Stepped (mk_consumer (c_scan (S i)) s) w []) /\
  (forall s w,
     s <> paused -> state_of w this = incoming ->
     run step (3 + S (ins d_inputs)) (mk_consumer c_observe s) w =
       (Running, mk_consumer c_while incoming,
        (scan_from ready 0 d_inputs (set_monitor w this started)).1,
        ev_ready <$> (scan_from ready 0 d_inputs (set_monitor w this started)).2)) /\
  (forall w,
     StronglySorted lt (scan_from ready 0 d_inputs w).2 /\
     Forall (fun k => (k < ins d_inputs)%nat) (scan_from ready 0 d_inputs w).2) /\
  ((forall k w j, inpin_peek (ready k w) j = inpin_peek w j) ->
   forall w k,
     k ∈ (scan_from ready 0 d_inputs w).2 <->
     exists input_k, d_inputs !! k = Some input_k /\ inpin_peek w input_k = true).
Proof.
  intros step. subst step. unfold ins.
  split.
  { intros s w. unfold consumer_step. cbn [c_at c_s].
    destruct (decide (s = incoming)); reflexivity. }
  split.
  { intros i s w input_i Hi. unfold consumer_step. cbn [c_at c_s].
    rewrite Hi. reflexivity. }
  split.
  { intros s w Hs Hinc. rewrite run_add.
    assert (H3 : run (consumer_step ready this d_inputs) 3
                   (mk_consumer c_observe s) w =
                 (Running, mk_consumer (c_scan 0) incoming,
                  set_monitor w this started, [])).
    { cbn [run]. unfold consumer_step at 1. cbn [c_at c_s].
      rewrite decide_False by exact Hs. rewrite Hinc.
      destruct (decide (s = started)); reflexivity. }
    rewrite H3.
    rewrite (consumer_scan_run ready this d_inputs incoming d_inputs 0%nat
               (set_monitor w this started) eq_refl).
    reflexivity. }
  split.
  { intros w. destruct (scan_from_sorted ready d_inputs 0%nat w) as [Hs Hf].
    split; [exact Hs|]. eapply Forall_impl; [exact Hf|]. simpl. intros k Hk. lia. }
  intros Hstable w k.
  rewrite (scan_from_exact ready Hstable d_inputs 0%nat w k).
  rewrite Nat.sub_0_r. split.
  - intros (_ & H). exact H.
  - intros H. split; [lia|exact H].
Qed.

Lemma consumer_scan_witness :
  state_of w_two_queued 0%nat = incoming /\
  (run (consumer_step (ready_pop [1%nat; 2%nat]) 0%nat [1%nat; 2%nat])
       (3 + S (ins [1%nat; 2%nat])) (mk_consumer c_observe started)
       w_two_queued).2 = [ev_ready 0; ev_ready 1].
Proof.
  split; [reflexivity|].
  destruct (consumer_scan (ready_pop [1%nat; 2%nat]) 0%nat [1%nat; 2%nat])
    as (_ & _ & Hrun & _).
  rewrite (Hrun started w_two_queued); [reflexivity|discriminate|reflexivity].
Defined.

(** C8: once [stop()] has written [stop_requested], the predicates of
    both waits hold, and a thread suspended in either wait needs nothing
    else: running alone it reads [stop_requested], calls neither
    [produce()] nor [ready()], and returns. *)
Theorem stop_wakes_suspended (produce : world -> world)
    (ready : nat -> world -> world) (this : node_ptr) (d_inputs : list pin_ptr) :
  (forall w,
     wakes_paused (state_of (node_stop w this) this) = true /\
     wakes_started (state_of (node_stop w this) this) = true) /\
  (forall w,
     run (producer_step produce this) 4 (mk_producer p_observe paused)
         (node_stop w this) =
       (Finished, mk_producer p_while stop_requested, node_stop w this, [])) /\
  (forall s w,
     s = paused \/ s = started ->
     run (consumer_step ready this d_inputs) 4 (mk_consumer c_observe s)
         (node_stop w this) =
       (Finished, mk_consumer c_while stop_requested, node_stop w this, [])).
Proof.
  assert (Hst : forall w, state_of (node_stop w this) this = stop_requested).
  { intros w. apply state_of_set_monitor. }
  split; [intros w; rewrite Hst; split; reflexivity|].
  split.
  - intros w. cbn [run]. unfold producer_step at 1. cbn [p_at p_s].
    rewrite Hst. reflexivity.
  - intros s w [-> | ->]; cbn [run]; unfold consumer_step at 1;
      cbn [c_at c_s]; rewrite Hst; reflexivity.
Qed.

Lemma stop_wakes_suspended_witness :
  (started = paused \/ started = started) /\
  consumer_step (ready_pop [1%nat; 2%nat]) 0%nat [1%nat; 2%nat]
    (mk_consumer c_observe started) w_fresh = Blocked /\
  run (consumer_step (ready_pop [1%nat; 2%nat]) 0%nat [1%nat; 2%nat]) 4
      (mk_consumer c_observe started) (node_stop w_fresh 0%nat) =
    (Finished, mk_consumer c_while stop_requested, node_stop w_fresh 0%nat, []).
Proof.
  split; [right; reflexivity|]. split; [reflexivity|].
  destruct (stop_wakes_suspended (fun w => w) (ready_pop [1%nat; 2%nat]) 0%nat
              [1%nat; 2%nat]) as (_ & _ & Hc).
  apply Hc. right. reflexivity.
Defined.

(** * Further properties *)

(** ** Pushing and notifying *)

Lemma pins_inpin_incoming w i : pins (inpin_incoming w i) = pins w.
Proof.
  unfold inpin_incoming.
  destruct (pins w !! i) as [[nm rf [m|]]|]; try reflexivity.
  destruct (monitors w !! m) as [[]|]; reflexivity.
Qed.

Lemma pipes_inpin_incoming w i : pipes (inpin_incoming w i) = pipes w.
Proof.
  unfold inpin_incoming.
  destruct (pins w !! i) as [[nm rf [m|]]|]; try reflexivity.
  destruct (monitors w !! m) as [[]|]; reflexivity.
Qed.

Lemma pins_outpin_push w o pk : pins (outpin_push w o pk).1.1 = pins w.
Proof.
  unfold outpin_push. destruct (pin_pipe w o) as [[r p]|]; [|reflexivity].
  destruct (pipe_push p pk) as [p' acc].
  destruct (if acc then pipe_output p' else None); simpl; [|reflexivity].
  rewrite pins_inpin_incoming. reflexivity.
Qed.

Lemma pipes_outpin_push_other w o pk r :
  pin_ref w o <> Some r ->
  pipes (outpin_push w o pk).1.1 !! r = pipes w !! r.
Proof.
  intros Hr. unfold outpin_push, pin_ref, pin_pipe in *.
  destruct (pins w !! o) as [pn|]; simpl in *; [|reflexivity].
  destruct (d_pipe_cr_sp pn) as [r0|]; simpl in *; [|reflexivity].
  destruct (pipes w !! r0) as [p|]; simpl; [|reflexivity].
  destruct (pipe_push p pk) as [p' acc].
  destruct (if acc then pipe_output p' else None); simpl;
    rewrite ?pipes_inpin_incoming; simpl;
    apply lookup_insert_ne; congruence.
Qed.

Lemma pipe_push_input p pk : pipe_input (pipe_push p pk).1 = pipe_input p.
Proof. unfold pipe_push. case (_ && _); reflexivity. Qed.

(** A push replaces the outpin's pipe by one with the same two ends. *)
Lemma pipes_outpin_push w o pk r p :
  pipes w !! r = Some p ->
  exists p', pipes (outpin_push w o pk).1.1 !! r = Some p' /\
    pipe_input p' = pipe_input p /\ pipe_output p' = pipe_output p.
Proof.
  intros Hp. destruct (decide (pin_ref w o = Some r)) as [Heq|Hne].
  - unfold outpin_push, pin_ref, pin_pipe in *.
    destruct (pins w !! o) as [pn|]; simpl in *; [|discriminate].
    rewrite Heq. simpl. rewrite Hp. simpl.
    pose proof (pipe_push_input p pk) as Hin.
    pose proof (pipe_push_output p pk) as Hout.
    destruct (pipe_push p pk) as [p' acc]. simpl in Hin, Hout.
    exists p'. split; [|auto].
    destruct (if acc then pipe_output p' else None); simpl;
      rewrite ?pipes_inpin_incoming; simpl; apply lookup_insert_eq.
  - exists p. rewrite (pipes_outpin_push_other w o pk r Hne). auto.
Qed.

Lemma outpin_push_inv w o pk : world_inv w -> world_inv (outpin_push w o pk).1.1.
Proof.
  intros [Hok Hty]. split.
  - intros i pn Hi r Hr. rewrite pins_outpin_push in Hi.
    destruct (Hok i pn Hi r Hr) as (p & Hp & Hend).
    destruct (pipes_outpin_push w o pk r p Hp) as (p' & Hp' & Hin & Hout).
    exists p'. split; [exact Hp'|]. rewrite Hin, Hout. exact Hend.
  - intros r p' q Hp' Hq. rewrite pins_outpin_push.
    destruct (pipes w !! r) as [p|] eqn:Hp.
    + destruct (pipes_outpin_push w o pk r p Hp) as (p2 & Hp2 & Hin & _).
      rewrite Hp' in Hp2. injection Hp2 as <-.
      rewrite Hin in Hq. eapply Hty; eauto.
    + assert (Hne : pin_ref w o <> Some r).
      { intros Heq. unfold pin_ref in Heq.
        destruct (pins w !! o) as [pn|] eqn:Ho; simpl in Heq; [|discriminate].
        destruct (Hok o pn Ho r Heq) as (p & Hp0 & _). congruence. }
      rewrite (pipes_outpin_push_other w o pk r Hne), Hp in Hp'. discriminate.
Qed.

(** X1: [outpin::push] changes no pin and no pipe other than the one the
    outpin holds, and the only thing it does to a node's state is to turn
    [started] into [incoming]: a pending start, pause or stop request is
    never overwritten by an arriving packet. *)
Theorem outpin_push_frame w o pk :
  pins (outpin_push w o pk).1.1 = pins w /\
  (forall r, pin_ref w o <> Some r ->
     pipes (outpin_push w o pk).1.1 !! r = pipes w !! r) /\
  (forall n, state_of w n <> started ->
     state_of (outpin_push w o pk).1.1 n = state_of w n) /\
  (forall n, state_of w n = started ->
     state_of (outpin_push w o pk).1.1 n = started \/
     state_of (outpin_push w o pk).1.1 n = incoming).
Proof.
  split; [apply pins_outpin_push|].
  split; [apply pipes_outpin_push_other|]. split.
  - intros n Hn. destruct (state_of_outpin_push w o pk n) as [H|[H _]];
      [exact H|contradiction].
  - intros n Hn. destruct (state_of_outpin_push w o pk n) as [H|[_ H]];
      [left; congruence|right; exact H].
Qed.

(** X2: when the pipe accepts the packet and the inpin at its other end
    belongs to a node whose state is [started], the push leaves that node
    in state [incoming], which is what the consumer's idle wait is
    waiting for. *)
Theorem push_wakes_started_consumer w o pn r p i nm rf n pk :
  pins w !! o = Some pn -> d_pipe_cr_sp pn = Some r ->
  pipes w !! r = Some p -> pipe_output p = Some i ->
  pins w !! i = Some (mk_pin nm rf (inpin n)) ->
  state_of w n = started -> (pipe_push p pk).2 = true ->
  state_of (outpin_push w o pk).1.1 n = incoming /\
  wakes_started (state_of (outpin_push w o pk).1.1 n) = true /\
  wakes_started (state_of w n) = false.
Proof.
  intros Ho Hr Hp Hout Hi Hst Hacc.
  assert (H : state_of (outpin_push w o pk).1.1 n = incoming).
  { unfold outpin_push. rewrite (pin_pipe_Some _ _ _ _ _ Ho Hr Hp).
    pose proof (pipe_push_output p pk) as Hout'.
    destruct (pipe_push p pk) as [p' acc]. simpl in Hacc, Hout'. subst acc.
    rewrite Hout', Hout. simpl. unfold inpin_incoming. simpl. rewrite Hi.
    unfold state_of in Hst.
    destruct (monitors w !! n) as [[]|]; simpl in Hst; try discriminate.
    apply state_of_set_monitor. }
  rewrite H, Hst. repeat split.
Qed.

Lemma push_wakes_started_consumer_witness :
  state_of (w_AX 0 0) 0%nat = started /\
  state_of (outpin_push (w_AX 0 0) 0%nat pk0).1.1 0%nat = incoming.
Proof.
  split; [reflexivity|].
  apply (push_wakes_started_consumer (w_AX 0 0) 0%nat
           (mk_pin "A" (Some 0%nat) outpin) 0%nat
           (pipe_new "A_to_X" 0%nat 1%nat 0 0) 1%nat "X" (Some 0%nat) 0%nat pk0);
    reflexivity.
Defined.

(** ** Disconnecting *)

Lemma pin_pipe_set_pipe_ref_ne w i r j :
  j <> i -> pin_pipe (set_pipe_ref w i r) j = pin_pipe w j.
Proof.
  intros Hne. unfold pin_pipe. rewrite pins_set_pipe_ref.
  rewrite decide_False by congruence. reflexivity.
Qed.




(** ** Connecting *)

Lemma pin_ref_set_pipe_ref w i r j :
  pin_ref (set_pipe_ref w i r) j =
    if decide (i = j) then pins w !! i ≫= (fun _ => r) else pin_ref w j.
Proof.
  unfold pin_ref. rewrite pins_set_pipe_ref.
  destruct (decide (i = j)); [|reflexivity].
  destruct (pins w !! i); reflexivity.
Qed.

(** What a call of [pin::connect] that returned has done. *)
Lemma pin_connect_Some w this other ml mw w' e :
  pin_connect w this other ml mw = Some (w', e) ->
  exists tp op,
    pins w !! this = Some tp /\ pins w !! other = Some op /\
    direction tp = dir_in /\ direction op = dir_out /\
    ~ drops_last_reference w other /\
    match pin_pipe (disconnect_input_of_live w other).1 this with
    | Some (r, p) =>
        w' = set_pipe (set_pipe_ref (disconnect_input_of_live w other).1 other (Some r))
               r (reuse_caps (pipe_rename p (pipe_label op tp)) ml mw) /\
        e = (disconnect_input_of_live w other).2 ++ [ev_access r; ev_release r]
    | None =>
        w' = set_pipe_ref
               (set_pipe_ref
                  (set_pipe (disconnect_input_of_live w other).1
                     (new_pipe_ptr (disconnect_input_of_live w other).1)
                     (pipe_new (pipe_label op tp) other this ml mw))
                  this (Some (new_pipe_ptr (disconnect_input_of_live w other).1)))
               other (Some (new_pipe_ptr (disconnect_input_of_live w other).1)) /\
        e = (disconnect_input_of_live w other).2
    end.
Proof.
  unfold pin_connect.
  destruct (pins w !! this) as [tp|]; simpl; [|discriminate].
  destruct (pins w !! other) as [op|]; simpl; [|discriminate].
  destruct (decide _) as [[H1 H2]|]; [|discriminate].
  destruct (disconnect_input_of w other) as [x|] eqn:Hd; simpl; [|discriminate].
  apply disconnect_input_of_Some in Hd as [-> Hdef].
  destruct (disconnect_input_of_live w other) as [w1 e1]. simpl.
  intros H. exists tp, op. repeat (split; [assumption || reflexivity|]).
  destruct (pin_pipe w1 this) as [[r p]|]; injection H as <- <-; split; reflexivity.
Qed.

Lemma reuse_caps_name p ml mw : pipe_name (reuse_caps p ml mw) = pipe_name p.
Proof. unfold reuse_caps. destruct (ml =? 0), (mw =? 0); reflexivity. Qed.

(** X4: when [this] is an inpin, [other] an outpin, and [other] is not
    the last holder of its pipe, [pin::connect] completes, whichever
    pipes the two pins held; and whenever it completes, on either path,
    both pins hold one and the same pipe, which exists and is named
    [<other>_to_<this>]. *)
Theorem connect_shares_named_pipe w this other ml mw :
  (forall tp op,
     pins w !! this = Some tp -> pins w !! other = Some op ->
     direction tp = dir_in -> direction op = dir_out ->
     not_last_holder w other ->
     is_Some (pin_connect w this other ml mw)) /\
  (forall w' e,
     pin_connect w this other ml mw = Some (w', e) ->
     exists r p tp op,
       pins w !! this = Some tp /\ pins w !! other = Some op /\
       pin_ref w' this = Some r /\ pin_ref w' other = Some r /\
       pipes w' !! r = Some p /\ pipe_name p = pipe_label op tp).
Proof.
  split.
  - intros tp op Hthis Hother H1 H2 Hsh. unfold pin_connect.
    rewrite Hthis, Hother. simpl. rewrite decide_True by auto.
    rewrite (disconnect_input_of_defined w other
               (not_last_holder_defined w other Hsh)). simpl.
    destruct (disconnect_input_of_live w other) as [w1 e1].
    destruct (pin_pipe w1 this) as [[r p]|]; eauto.
  - intros w' e Hc.
    apply pin_connect_Some in Hc
      as (tp & op & Hthis & Hother & H1 & H2 & _ & Hres).
    assert (Hne : this <> other).
    { intros ->. rewrite Hthis in Hother. injection Hother as ->. congruence. }
    destruct (disconnect_input_of_live_keeps w other other op Hother)
      as (op1 & Hother1 & _).
    destruct (disconnect_input_of_live_keeps w other this tp Hthis)
      as (tp1 & Hthis1 & _).
    destruct (disconnect_input_of_live w other) as [w1 e1]. simpl in *.
    destruct (pin_pipe w1 this) as [[r p]|] eqn:Hpp; destruct Hres as [-> ->].
    + exists r, (reuse_caps (pipe_rename p (pipe_label op tp)) ml mw), tp, op.
      split; [exact Hthis|]. split; [exact Hother|].
      change (pin_ref (set_pipe ?w _ _) ?j) with (pin_ref w j).
      rewrite !pin_ref_set_pipe_ref.
      repeat case_decide; try congruence.
      rewrite Hother1. simpl.
      unfold pin_pipe in Hpp. unfold pin_ref. rewrite Hthis1 in *. simpl in *.
      destruct (d_pipe_cr_sp tp1) as [r0|]; simpl in *; [|discriminate].
      destruct (pipes w1 !! r0); simpl in *; [|discriminate].
      injection Hpp as -> _.
      split; [reflexivity|]. split; [reflexivity|].
      split; [apply lookup_insert_eq|]. apply reuse_caps_name.
    + exists (new_pipe_ptr w1), (pipe_new (pipe_label op tp) other this ml mw),
        tp, op.
      split; [exact Hthis|]. split; [exact Hother|].
      rewrite !pin_ref_set_pipe_ref, pins_set_pipe_ref.
      repeat case_decide; try congruence.
      change (pins (set_pipe ?w _ _)) with (pins w).
      rewrite Hother1, Hthis1. simpl.
      split; [reflexivity|]. split; [reflexivity|].
      split; [apply lookup_insert_eq|reflexivity].
Qed.

Lemma lock_discipline_app e1 e2 : forall h,
  lock_discipline h e1 = true ->
  lock_discipline h (e1 ++ e2) = lock_discipline None e2.
Proof.
  induction e1 as [|e e1 IH]; intros h H; simpl in *.
  - apply bool_decide_eq_true in H. subst h. reflexivity.
  - destruct e; try (apply IH; exact H);
      apply andb_true_iff in H as [Hh H]; rewrite Hh; simpl;
      apply IH; exact H.
Qed.

Lemma disconnect_input_of_live_locks w other :
  lock_discipline None (disconnect_input_of_live w other).2 = true.
Proof.
  rewrite disconnect_input_of_live_events.
  destruct (pin_pipe w other) as [[r p]|]; [|reflexivity].
  destruct (pipe_input p); simpl;
    rewrite !bool_decide_eq_true_2 by reflexivity; reflexivity.
Qed.

(** X5: [outpin::push] and [pin::connect] take a pipe's lock only while
    they hold no other, and have released every lock they took when they
    return. *)
Theorem locks_taken_one_at_a_time w :
  (forall o pk, lock_discipline None (outpin_push w o pk).2 = true) /\
  (forall this other ml mw w' e,
     pin_connect w this other ml mw = Some (w', e) ->
     lock_discipline None e = true).
Proof.
  split.
  - intros o pk. unfold outpin_push.
    destruct (pin_pipe w o) as [[r p]|]; [|reflexivity].
    destruct (pipe_push p pk) as [p' acc].
    destruct (if acc then pipe_output p' else None); destruct acc; simpl;
      rewrite !bool_decide_eq_true_2 by reflexivity; reflexivity.
  - intros this other ml mw w' e Hc.
    apply pin_connect_Some in Hc as (tp & op & _ & _ & _ & _ & _ & Hres).
    pose proof (disconnect_input_of_live_locks w other) as He1.
    destruct (disconnect_input_of_live w other) as [w1 e1]. simpl in *.
    destruct (pin_pipe w1 this) as [[r p]|]; destruct Hres as [_ ->].
    + rewrite (lock_discipline_app _ _ _ He1). simpl.
      rewrite !bool_decide_eq_true_2 by reflexivity. reflexivity.
    + exact He1.
Qed.

Lemma locks_taken_one_at_a_time_witness :
  lock_discipline None
    [ev_access 1%nat; ev_disconnect 0%nat; ev_release 1%nat;
     ev_access 0%nat; ev_release 0%nat] = true.
Proof.
  destruct (outpin_connect w_BY 0%nat 1%nat 0 0) as [[w1 e1]|] eqn:H1;
    [|vm_compute in H1; discriminate].
  destruct (outpin_connect w1 0%nat 2%nat 0 0) as [[w2 e2]|] eqn:H2;
    [|vm_compute in H1; injection H1 as <- <-; vm_compute in H2; discriminate].
  pose proof (proj2 (locks_taken_one_at_a_time w1) _ _ _ _ _ _ H2) as H.
  vm_compute in H1. injection H1 as <- <-.
  vm_compute in H2. injection H2 as <- <-. exact H.
Defined.

(** X6: connecting an outpin that is not the last holder of its pipe to
    an inpin that holds no pipe leaves every other inpin with the pipe
    and the queue it had: it peeks and pops what it did before, also when
    the outpin is taken away from it. *)
Theorem connect_keeps_other_queues w this other tp op ml mw j pj :
  world_inv w -> not_last_holder w other ->
  pins w !! this = Some tp -> pins w !! other = Some op ->
  direction tp = dir_in -> class op = outpin -> d_pipe_cr_sp tp = None ->
  pins w !! j = Some pj -> direction pj = dir_in -> j <> this ->
  exists w' e,
    pin_connect w this other ml mw = Some (w', e) /\
    pin_pipe w' j = pin_pipe w j /\
    inpin_peek w' j = inpin_peek w j /\
    (inpin_pop w' j).2 = (inpin_pop w j).2.
Proof.
  intros Hinv Hsh Hthis Hother Hdir Hcl Hnull Hj Hdirj Hjt.
  destruct (pin_connect_new w this other tp op ml mw
              (world_inv_except other w Hinv)
              (not_last_holder_defined w other Hsh)
              Hthis Hother Hdir Hcl Hnull)
    as (w' & Hc & Hpipes & _ & _ & Hpins & _).
  assert (Hjo : j <> other).
  { intros ->. rewrite Hother in Hj. injection Hj as <-.
    apply class_outpin_direction in Hcl. congruence. }
  assert (Hpp : pin_pipe w' j = pin_pipe w j).
  { unfold pin_pipe. rewrite (Hpins j Hjt Hjo).
    rewrite (disconnect_input_of_live_inpin w other j pj (proj2 Hinv) Hj Hdirj), Hj.
    simpl. destruct (d_pipe_cr_sp pj) as [r|] eqn:Hr; [|reflexivity]. simpl.
    destruct (proj1 Hinv j pj Hj r Hr) as (p & Hp & _).
    rewrite Hpipes, lookup_insert_ne; [reflexivity|].
    intros <-. rewrite new_pipe_ptr_fresh in Hp. discriminate. }
  eexists w', _. split; [exact Hc|]. split; [exact Hpp|].
  split; [unfold inpin_peek; rewrite Hpp; reflexivity|].
  unfold inpin_pop. rewrite Hpp.
  destruct (pin_pipe w j) as [[r p]|]; [|reflexivity].
  destruct (negb (pipe_length p =? 0)); [|reflexivity].
  destruct (pipe_pop p); reflexivity.
Qed.

Lemma connect_keeps_other_queues_witness :
  1%nat <> 2%nat /\
  not_last_holder (outpin_push (w_AX 0 0) 0%nat pk0).1.1 0%nat /\
  exists w' e,
    pin_connect (outpin_push (w_AX 0 0) 0%nat pk0).1.1 2%nat 0%nat 0 0
      = Some (w', e) /\
    pin_pipe w' 1%nat = pin_pipe (outpin_push (w_AX 0 0) 0%nat pk0).1.1 1%nat /\
    inpin_peek w' 1%nat = true /\
    (inpin_pop w' 1%nat).2 = Some pk0.
Proof.
  split; [discriminate|].
  assert (Hinv : world_inv (outpin_push (w_AX 0 0) 0%nat pk0).1.1).
  { apply outpin_push_inv, w_AX_inv. }
  assert (Hsh : not_last_holder (outpin_push (w_AX 0 0) 0%nat pk0).1.1 0%nat).
  { intros r Hr. exists 1%nat. split; [discriminate|].
    vm_compute in Hr. injection Hr as <-. reflexivity. }
  split; [exact Hsh|].
  destruct (connect_keeps_other_queues (outpin_push (w_AX 0 0) 0%nat pk0).1.1
              2%nat 0%nat (mk_pin "Y" None (inpin 0%nat))
              (mk_pin "A" (Some 0%nat) outpin) 0 0 1%nat
              (mk_pin "X" (Some 0%nat) (inpin 0%nat)) Hinv Hsh)
    as (w' & e & Hc & Hpp & Hpeek & Hpop);
    try reflexivity; try discriminate.
  exists w', e. split; [exact Hc|]. split; [exact Hpp|].
  rewrite Hpeek, Hpop. split; reflexivity.
Defined.

(** ** The invariant is kept *)

Lemma pipe_pop_ends p :
  pipe_input (pipe_pop p).1 = pipe_input p /\
  pipe_output (pipe_pop p).1 = pipe_output p.
Proof. unfold pipe_pop. destruct (d_packets p); split; reflexivity. Qed.

Lemma inpin_pop_inv w i : world_inv w -> world_inv (inpin_pop w i).1.
Proof.
  intros Hinv. unfold inpin_pop.
  destruct (pin_pipe w i) as [[r p]|] eqn:Hpp; [|exact Hinv].
  destruct (negb (pipe_length p =? 0)); [|exact Hinv].
  destruct (pipe_pop_ends p) as [Hin Hout].
  destruct (pipe_pop p) as [p' pk]. simpl in *.
  assert (Hp : pipes w !! r = Some p).
  { unfold pin_pipe in Hpp.
    destruct (pins w !! i) as [pn|]; simpl in Hpp; [|discriminate].
    destruct (d_pipe_cr_sp pn) as [r0|]; simpl in Hpp; [|discriminate].
    destruct (pipes w !! r0) as [p0|] eqn:Hp0; simpl in Hpp; [|discriminate].
    injection Hpp as <- <-. exact Hp0. }
  destruct Hinv as [Hok Hty]. split.
  - intros j pn Hj r0 Hr0. simpl in *.
    destruct (Hok j pn Hj r0 Hr0) as (p0 & Hp0 & Hend).
    destruct (decide (r = r0)) as [<-|Hne].
    + exists p'. rewrite lookup_insert_eq. split; [reflexivity|].
      rewrite Hp in Hp0. injection Hp0 as <-. rewrite Hin, Hout. exact Hend.
    + exists p0. rewrite lookup_insert_ne by exact Hne. auto.
  - intros r0 p0 q Hp0 Hq. simpl in *.
    destruct (decide (r = r0)) as [<-|Hne].
    + rewrite lookup_insert_eq in Hp0. injection Hp0 as <-.
      rewrite Hin in Hq. eapply Hty; eauto.
    + rewrite lookup_insert_ne in Hp0 by exact Hne. eapply Hty; eauto.
Qed.

Lemma pin_disconnect_inv w i : world_inv w -> world_inv (pin_disconnect w i).
Proof.
  intros [Hok Hty]. unfold pin_disconnect. split.
  - intros j pn Hj r Hr. rewrite pins_set_pipe_ref in Hj.
    destruct (decide (i = j)) as [<-|Hne].
    + destruct (pins w !! i); simpl in Hj; [|discriminate].
      injection Hj as <-. discriminate.
    + exact (Hok j pn Hj r Hr).
  - intros r p q Hp Hq. destruct (Hty r p q Hp Hq) as (pn & Hpn & Hcl).
    rewrite pins_set_pipe_ref. destruct (decide (i = q)) as [<-|Hne].
    + rewrite Hpn. simpl. eexists. split; [reflexivity|exact Hcl].
    + eauto.
Qed.

(** X7: the relation between pins and pipes (every pin's pipe exists and
    records that pin as its end of the matching kind, and every pipe's
    [input()] is an outpin) is kept by [outpin::push], [inpin::pop],
    [pin::disconnect], and by [pin::connect] on an inpin that holds no
    pipe. *)
Theorem pin_pipe_invariant_kept w :
  world_inv w ->
  (forall o pk, world_inv (outpin_push w o pk).1.1) /\
  (forall i, world_inv (inpin_pop w i).1) /\
  (forall i, world_inv (pin_disconnect w i)) /\
  (forall this other tp ml mw w' e,
     pins w !! this = Some tp -> d_pipe_cr_sp tp = None ->
     pin_connect w this other ml mw = Some (w', e) -> world_inv w').
Proof.
  intros Hinv.
  split; [intros o pk; apply outpin_push_inv, Hinv|].
  split; [intros i; apply inpin_pop_inv, Hinv|].
  split; [intros i; apply pin_disconnect_inv, Hinv|].
  intros this other tp ml mw w' e Hthis Hnull Hc.
  pose proof Hc as Hc'.
  apply pin_connect_Some in Hc'
    as (tp' & op & Ht & Ho & Hd1 & Hd2 & Hdef & _).
  rewrite Hthis in Ht. injection Ht as <-.
  assert (Hcl : class op = outpin).
  { unfold direction in Hd2. destruct (class op); [discriminate|reflexivity]. }
  destruct (pin_connect_new w this other tp op ml mw
              (world_inv_except other w Hinv) Hdef Hthis Ho Hd1 Hcl Hnull)
    as (w2 & Hc2 & _ & _ & _ & _ & Hinv2).
  rewrite Hc in Hc2. injection Hc2 as <- _. exact Hinv2.
Qed.

Lemma pin_pipe_invariant_kept_witness :
  let w := (outpin_push (w_AX 0 0) 0%nat pk0).1.1 in
  world_inv w /\
  (d_packets <$> pipes (outpin_push w 0%nat pk1).1.1 !! 0%nat) = Some [pk0; pk1] /\
  world_inv (outpin_push w 0%nat pk1).1.1 /\
  (inpin_pop w 1%nat).2 = Some pk0 /\
  world_inv (inpin_pop w 1%nat).1 /\
  pin_ref w 1%nat = Some 0%nat /\
  pin_ref (pin_disconnect w 1%nat) 1%nat = None /\
  world_inv (pin_disconnect w 1%nat) /\
  exists w' e,
    pin_connect w 2%nat 0%nat 0 0 = Some (w', e) /\
    pin_ref w' 0%nat = Some 1%nat /\ world_inv w'.
Proof.
  intros w.
  assert (Hinv : world_inv w) by apply outpin_push_inv, w_AX_inv.
  destruct (pin_pipe_invariant_kept w Hinv) as (H1 & H2 & H3 & H4).
  split; [exact Hinv|]. split; [reflexivity|]. split; [apply H1|].
  split; [reflexivity|]. split; [apply H2|].
  split; [reflexivity|]. split; [reflexivity|]. split; [apply H3|].
  destruct (pin_connect w 2%nat 0%nat 0 0) as [[w' e]|] eqn:Hc;
    [|vm_compute in Hc; discriminate].
  exists w', e. split; [reflexivity|]. split.
  - vm_compute in Hc. injection Hc as <- _. reflexivity.
  - apply (H4 2%nat 0%nat (mk_pin "Y" None (inpin 0%nat)) 0 0 w' e);
      [reflexivity|reflexivity|exact Hc].
Defined.

Lemma connect_shares_named_pipe_witness :
  not_last_holder (w_AX 0 0) 3%nat /\
  exists w' e r p,
    pin_connect (w_AX 0 0) 1%nat 3%nat 0 0 = Some (w', e) /\
    pin_ref w' 1%nat = Some r /\ pin_ref w' 3%nat = Some r /\
    pin_ref w' 0%nat = Some r /\
    pipes w' !! r = Some p /\ pipe_name p = "B_to_X".
Proof.
  assert (Hsh : not_last_holder (w_AX 0 0) 3%nat).
  { apply (not_last_holder_null _ 3%nat (mk_pin "B" None outpin)); reflexivity. }
  split; [exact Hsh|].
  destruct (connect_shares_named_pipe (w_AX 0 0) 1%nat 3%nat 0 0) as [Hdef Hres].
  destruct (Hdef (mk_pin "X" (Some 0%nat) (inpin 0%nat)) (mk_pin "B" None outpin)
              eq_refl eq_refl eq_refl eq_refl Hsh) as [[w' e] Hc].
  destruct (Hres w' e Hc) as (r & p & tp & op & Ht & Ho & Hrt & Hro & Hp & Hname).
  injection Ht as <-. injection Ho as <-.
  exists w', e, r, p. split; [exact Hc|]. split; [exact Hrt|].
  split; [exact Hro|]. split; [|split; [exact Hp|exact Hname]].
  vm_compute in Hc. injection Hc as <- _.
  vm_compute in Hrt. injection Hrt as <-. reflexivity.
Defined.

(** X8: connecting again a pair of pins that already share their pipe,
    with both caps 0, gives back the same store: the outpin is released
    and attached again, and the pipe keeps its name, its caps and every
    queued packet. *)
Theorem reconnect_same_pair w this other tp op r p :
  world_inv w ->
  pins w !! this = Some tp -> pins w !! other = Some op ->
  direction tp = dir_in -> class op = outpin ->
  d_pipe_cr_sp tp = Some r -> d_pipe_cr_sp op = Some r ->
  pipes w !! r = Some p -> pipe_name p = pipe_label op tp ->
  pin_connect w this other 0 0 =
    Some (w, [ev_access r; ev_disconnect other; ev_release r;
              ev_access r; ev_release r]).
Proof.
  intros [Hok Hty] Hthis Hother Hdir Hcl Hrt Hro Hp Hname.
  assert (Hne : this <> other).
  { intros ->. rewrite Hthis in Hother. injection Hother as ->.
    apply class_outpin_direction in Hcl. congruence. }
  assert (Hin : pipe_input p = Some other).
  { destruct (Hok other op Hother r Hro) as (p0 & Hp0 & Hend).
    rewrite Hcl in Hend. congruence. }
  unfold pin_connect. rewrite Hthis, Hother. simpl.
  rewrite decide_True by (split; [exact Hdir|apply class_outpin_direction, Hcl]).
  assert (Hsh : not_last_holder w other).
  { intros r' Hr'. exists this. split; [exact Hne|].
    unfold pin_ref in *. rewrite Hother in Hr'. rewrite Hthis.
    simpl in *. congruence. }
  rewrite (disconnect_input_of_defined w other (not_last_holder_defined _ _ Hsh)).
  cbn [mbind option_bind].
  unfold disconnect_input_of_live.
  rewrite (pin_pipe_Some _ _ _ _ _ Hother Hro Hp), Hin.
  unfold pin_disconnect. cbv beta iota.
  rewrite pin_pipe_set_pipe_ref_ne by exact Hne.
  rewrite (pin_pipe_Some _ _ _ _ _ Hthis Hrt Hp). simpl.
  f_equal. f_equal.
  destruct w as [ps pp ms]. unfold set_pipe, set_pipe_ref.
  simpl in *. f_equal.
  - apply map_eq. intros j. rewrite !lookup_alter.
    destruct (decide (other = j)) as [<-|]; [|reflexivity].
    rewrite decide_True by reflexivity. rewrite Hother.
    destruct op as [nm rf cl]. simpl in *. subst rf. reflexivity.
  - apply insert_id. rewrite Hp. f_equal.
    destruct p as [nm q i o ml mw]. unfold pipe_rename. simpl in *.
    subst nm. reflexivity.
Qed.

Lemma reconnect_same_pair_witness :
  pin_connect (outpin_push (w_AX 0 0) 0%nat pk0).1.1 1%nat 0%nat 0 0 =
    Some ((outpin_push (w_AX 0 0) 0%nat pk0).1.1,
          [ev_access 0%nat; ev_disconnect 0%nat; ev_release 0%nat;
           ev_access 0%nat; ev_release 0%nat]).
Proof.
  assert (Hinv : world_inv (outpin_push (w_AX 0 0) 0%nat pk0).1.1).
  { apply outpin_push_inv, w_AX_inv. }
  apply (reconnect_same_pair _ 1%nat 0%nat
           (mk_pin "X" (Some 0%nat) (inpin 0%nat))
           (mk_pin "A" (Some 0%nat) outpin) 0%nat
           (mk_pipe "A_to_X" [pk0] (Some 0%nat) (Some 1%nat) 0 0) Hinv);
    reflexivity.
Defined.

(** ** More on the execution loops *)

Lemma consumer_step_events ready this d_inputs t w t' w' evs :
  consumer_step ready this d_inputs t w = Stepped t' w' evs ->
  Forall (fun e => exists k, e = ev_ready k /\ (k < ins d_inputs)%nat) evs.
Proof.
  unfold consumer_step. destruct t as [pc s]. cbn [c_at c_s].
  destruct pc as [| | | | |i];
    repeat (destruct (decide _)); repeat (destruct (wakes_paused _));
    repeat (destruct (wakes_started _)); try discriminate;
    try (intros [= <- <- <-]; constructor).
  destruct (d_inputs !! i) as [input_i|] eqn:Hi;
    [|intros [= <- <- <-]; constructor].
  destruct (inpin_peek w input_i); intros [= <- <- <-]; constructor.
  - exists i. split; [reflexivity|]. apply lookup_lt_Some in Hi. exact Hi.
  - constructor.
Qed.

Lemma producer_step_events produce this t w t' w' evs :
  producer_step produce this t w = Stepped t' w' evs ->
  Forall (fun e => e = ev_produce) evs.
Proof.
  unfold producer_step. destruct t as [pc s]. cbn [p_at p_s].
  destruct pc; repeat (destruct (decide _)); repeat (destruct (wakes_paused _));
    try discriminate; intros [= <- <- <-]; repeat constructor.
Qed.

Lemma exec_events {T} (step : T -> world -> outcome T) (P : event -> Prop) :
  (forall t w t' w' evs, step t w = Stepped t' w' evs -> Forall P evs) ->
  forall sched t w, Forall P (exec step sched t w).2.
Proof.
  intros Hstep. induction sched as [|a sched IH]; intros t w; cbn [exec].
  - constructor.
  - destruct a as [|rq]; [|apply IH].
    destruct (step t w) as [t1 w1 e1| |] eqn:Hs; [|apply IH..].
    specialize (IH t1 w1). destruct (exec step sched t1 w1) as [[t2 w2] e2].
    simpl in *. apply Forall_app. split; [eapply Hstep; eauto|exact IH].
Qed.

(** X9: whatever the other threads do and wherever the thread stands, the
    only callback the consumer's loop (which is also the transformer's)
    ever calls is [ready], with the index of one of its input pins; it
    never calls [produce].  The producer's loop calls nothing but
    [produce]. *)
Theorem loops_call_only_their_callback (produce : world -> world)
    (ready : nat -> world -> world) (this : node_ptr) (d_inputs : list pin_ptr)
    (sched : list action) (w : world) :
  (forall t,
     Forall (fun e => exists k, e = ev_ready k /\ (k < ins d_inputs)%nat)
            (exec (consumer_step ready this d_inputs) sched t w).2 /\
     ev_produce ∉ (exec (consumer_step ready this d_inputs) sched t w).2) /\
  (forall t,
     Forall (fun e => e = ev_produce)
            (exec (producer_step produce this) sched t w).2).
Proof.
  split.
  - intros t.
    pose proof (exec_events (consumer_step ready this d_inputs) _
                  (consumer_step_events ready this d_inputs) sched t w) as H.
    split; [exact H|].
    intros Hin. rewrite Forall_forall in H.
    destruct (H _ Hin) as (k & Hk & _). discriminate.
  - intros t. apply exec_events. apply producer_step_events.
Qed.

(** After reading [incoming] the consumer is at the first pin, with the
    monitor settled to [started]. *)
Lemma consumer_wake_run ready this d_inputs s w :
  s <> paused -> state_of w this = incoming ->
  run (consumer_step ready this d_inputs) 3 (mk_consumer c_observe s) w =
    (Running, mk_consumer (c_scan 0) incoming, set_monitor w this started, []).
Proof.
  intros Hs Hinc. cbn [run]. unfold consumer_step at 1. cbn [c_at c_s].
  rewrite decide_False by exact Hs. rewrite Hinc.
  destruct (decide (s = started)); reflexivity.
Qed.

Lemma scan_from_state ready this :
  (forall k w, state_of (ready k w) this = state_of w this) ->
  forall l i w, state_of (scan_from ready i l w).1 this = state_of w this.
Proof.
  intros Hready. induction l as [|x l IH]; intros i w; cbn [scan_from];
    [reflexivity|].
  destruct (inpin_peek w x).
  - specialize (IH (S i) (ready i w)).
    destruct (scan_from ready (S i) l (ready i w)) as [w' called].
    simpl in *. rewrite IH. apply Hready.
  - apply IH.
Qed.

(** Back at the [while] test after a scan, with the monitor still
    [started], the consumer goes round once and is suspended. *)
Lemma consumer_idle_after ready this d_inputs w :
  state_of w this = started ->
  run (consumer_step ready this d_inputs) 6 (mk_consumer c_while incoming) w =
    (Suspended, mk_consumer c_observe started, w, []).
Proof.
  intros Hst. cbn [run]. unfold consumer_step at 1. cbn [c_at c_s].
  rewrite decide_False by discriminate.
  unfold consumer_step at 1. cbn [c_at c_s].
  rewrite decide_False by discriminate. rewrite decide_False by discriminate.
  rewrite Hst.
  unfold consumer_step at 1. cbn [c_at c_s].
  rewrite !decide_False by discriminate.
  unfold consumer_step at 1. cbn [c_at c_s].
  rewrite decide_False by discriminate.
  unfold consumer_step at 1. cbn [c_at c_s].
  rewrite decide_False by discriminate.
  unfold consumer_step at 1. cbn [c_at c_s].
  rewrite decide_False by discriminate. rewrite decide_True by reflexivity.
  rewrite Hst. reflexivity.
Qed.

(** X10: one [incoming] wake gives exactly one scan.  If [ready] leaves
    the node's state alone, the consumer that has read [incoming] visits
    its pins once, calls [ready] at most once per pin, and is then
    suspended in its idle wait, whatever is still queued in its pipes. *)
Theorem consumer_one_scan_per_wake (ready : nat -> world -> world)
    (this : node_ptr) (d_inputs : list pin_ptr) s w :
  s <> paused -> state_of w this = incoming ->
  (forall k w0, state_of (ready k w0) this = state_of w0 this) ->
  run (consumer_step ready this d_inputs) (3 + S (ins d_inputs) + 6)
      (mk_consumer c_observe s) w =
    (Suspended, mk_consumer c_observe started,
     (scan_from ready 0 d_inputs (set_monitor w this started)).1,
     ev_ready <$> (scan_from ready 0 d_inputs (set_monitor w this started)).2) /\
  NoDup (scan_from ready 0 d_inputs (set_monitor w this started)).2.
Proof.
  intros Hs Hinc Hready. split.
  - rewrite run_add, run_add.
    rewrite (consumer_wake_run ready this d_inputs s w Hs Hinc).
    unfold ins.
    rewrite (consumer_scan_run ready this d_inputs incoming d_inputs 0%nat
               (set_monitor w this started) eq_refl).
    rewrite consumer_idle_after.
    + rewrite !app_nil_r. reflexivity.
    + rewrite (scan_from_state ready this Hready). apply state_of_set_monitor.
  - destruct (scan_from_sorted ready d_inputs 0%nat (set_monitor w this started))
      as [Hsorted _].
    revert Hsorted. generalize (scan_from ready 0 d_inputs (set_monitor w this started)).2.
    intros l Hl. induction Hl as [|x l Hl IH Hx]; constructor; [|exact IH].
    intros Hin. rewrite Forall_forall in Hx. specialize (Hx x Hin). lia.
Qed.

Lemma consumer_one_scan_per_wake_witness :
  state_of w_two_queued 0%nat = incoming /\
  (run (consumer_step (fun _ w => w) 0%nat [1%nat; 2%nat])
       (3 + S (ins [1%nat; 2%nat]) + 6) (mk_consumer c_observe started)
       w_two_queued).1.1.1 = Suspended /\
  inpin_peek (set_monitor w_two_queued 0%nat started) 1%nat = true.
Proof.
  split; [reflexivity|].
  destruct (consumer_one_scan_per_wake (fun _ w => w) 0%nat [1%nat; 2%nat]
              started w_two_queued) as [Hrun _];
    [discriminate|reflexivity|reflexivity|].
  rewrite Hrun. split; reflexivity.
Defined.

Ltac consumer_steps :=
  repeat (unfold consumer_step at 1; cbn [c_at c_s];
          rewrite ?state_of_set_monitor;
          repeat (first [rewrite decide_True by reflexivity
                        |rewrite decide_False by discriminate]);
          cbn [wakes_paused wakes_started bool_decide decide_rel negb orb]).

Ltac producer_steps :=
  repeat (unfold producer_step at 1; cbn [p_at p_s];
          rewrite ?state_of_set_monitor;
          repeat (first [rewrite decide_True by reflexivity
                        |rewrite decide_False by discriminate]);
          cbn [wakes_paused bool_decide decide_rel negb orb]).

(** A state that satisfies both wait predicates is read wherever the
    consumer's local state stands. *)
Lemma consumer_observe_wakes ready this d_inputs s w :
  wakes_paused (state_of w this) = true ->
  wakes_started (state_of w this) = true ->
  consumer_step ready this d_inputs (mk_consumer c_observe s) w =
    Stepped (mk_consumer c_settle (state_of w this)) w [].
Proof.
  intros H1 H2. unfold consumer_step. cbn [c_at c_s]. rewrite H1, H2.
  destruct (decide (s = paused)); [reflexivity|].
  destruct (decide (s = started)); reflexivity.
Qed.

(** X11: [start()] does not make the consumer look at its pins.  Wherever
    its local state stands, a consumer that reads [start_requested]
    settles to [started] and is suspended in its idle wait without calling
    [ready]: packets already queued, and an [incoming] state that
    [start()] overwrote, wait for the next push. *)
Theorem start_does_not_scan (ready : nat -> world -> world) (this : node_ptr)
    (d_inputs : list pin_ptr) (s : state) (w : world) :
  run (consumer_step ready this d_inputs) 5 (mk_consumer c_observe s)
      (node_start w this) =
    (Suspended, mk_consumer c_observe started,
     set_monitor (node_start w this) this started, []).
Proof.
  assert (Hst : state_of (node_start w this) this = start_requested)
    by apply state_of_set_monitor.
  cbn [run]. rewrite consumer_observe_wakes by (rewrite Hst; reflexivity).
  rewrite Hst. consumer_steps. reflexivity.
Qed.

Lemma start_does_not_scan_witness :
  inpin_peek (node_start w_two_queued 0%nat) 1%nat = true /\
  (run (consumer_step (ready_pop [1%nat; 2%nat]) 0%nat [1%nat; 2%nat]) 5
       (mk_consumer c_observe paused) (node_start w_two_queued 0%nat)).2 = [].
Proof.
  split; [reflexivity|].
  rewrite (start_does_not_scan (ready_pop [1%nat; 2%nat]) 0%nat [1%nat; 2%nat]
             paused w_two_queued). reflexivity.
Defined.

(** X12: the first statement of both loops writes [started] over whatever
    the monitor holds, so a [stop()] issued before the loop begins is
    discarded: the consumer ends suspended in its idle wait and the
    producer goes on to call [produce()]. *)
Theorem entry_discards_earlier_request (produce : world -> world)
    (ready : nat -> world -> world) (this : node_ptr) (d_inputs : list pin_ptr)
    (s0 : state) (w : world) :
  run (consumer_step ready this d_inputs) 3 (mk_consumer c_entry s0)
      (node_stop w this) =
    (Suspended, mk_consumer c_observe started,
     set_monitor (node_stop w this) this started, []) /\
  run (producer_step produce this) 5 (mk_producer p_entry s0)
      (node_stop w this) =
    (Running, mk_producer p_while started,
     produce (set_monitor (node_stop w this) this started), [ev_produce]).
Proof.
  split.
  - cbn [run]. consumer_steps. reflexivity.
  - cbn [run]. producer_steps. reflexivity.
Qed.

(** X13: the loops read the monitor and settle it in two separate
    critical sections, so a request written in between is overwritten.
    A consumer that has read [incoming] and a producer that has read
    [start_requested] both write [started] over a [stop()] that arrives
    before they settle; the monitor then holds [started] and the threads
    go on. *)
Theorem settle_overwrites_request (produce : world -> world)
    (ready : nat -> world -> world) (this : node_ptr) (d_inputs : list pin_ptr)
    (s : state) (w : world) :
  (s <> paused -> state_of w this = incoming ->
   exec (consumer_step ready this d_inputs)
        [act_thread; act_other (req_stop this); act_thread]
        (mk_consumer c_observe s) w =
     (mk_consumer c_callback incoming,
      set_monitor (node_stop w this) this started, [])) /\
  (state_of w this = start_requested ->
   exec (producer_step produce this)
        [act_thread; act_other (req_stop this); act_thread]
        (mk_producer p_observe s) w =
     (mk_producer p_callback started,
      set_monitor (node_stop w this) this started, [])).
Proof.
  split.
  - intros Hs Hinc. cbn [exec]. unfold consumer_step at 1. cbn [c_at c_s].
    rewrite decide_False by exact Hs. rewrite Hinc.
    assert (H : (if decide (s = started)
                 then if wakes_started incoming
                      then Stepped (mk_consumer c_settle incoming) w []
                      else Blocked
                 else Stepped (mk_consumer c_settle incoming) w [])
                = Stepped (mk_consumer c_settle incoming) w []).
    { destruct (decide (s = started)); reflexivity. }
    rewrite H. cbn [request_apply]. consumer_steps. reflexivity.
  - intros Hst. cbn [exec]. unfold producer_step at 1. cbn [p_at p_s].
    rewrite Hst.
    assert (H : (if decide (s = paused)
                 then if wakes_paused start_requested
                      then Stepped (mk_producer p_settle start_requested) w []
                      else Blocked
                 else Stepped (mk_producer p_settle start_requested) w [])
                = Stepped (mk_producer p_settle start_requested) w []).
    { destruct (decide (s = paused)); reflexivity. }
    rewrite H. cbn [request_apply]. producer_steps. reflexivity.
Qed.

Lemma settle_overwrites_request_witness :
  state_of w_two_queued 0%nat = incoming /\
  state_of
    (exec (consumer_step (ready_pop [1%nat; 2%nat]) 0%nat [1%nat; 2%nat])
          [act_thread; act_other (req_stop 0%nat); act_thread]
          (mk_consumer c_observe started) w_two_queued).1.2 0%nat = started.
Proof.
  split; [reflexivity|].
  destruct (settle_overwrites_request (fun w => w) (ready_pop [1%nat; 2%nat])
              0%nat [1%nat; 2%nat] started w_two_queued) as [Hc _].
  rewrite Hc; [reflexivity|discriminate|reflexivity].
Defined.

(** X14: pause and resume of a producer.  After [pause()] the producer
    reads the request at its next turn, settles to [paused] and is
    suspended without calling [produce()]; after [start()] it settles to
    [started] and calls [produce()] on the store as it was left, the
    monitor apart. *)
Theorem producer_pause_resume (produce : world -> world) (this : node_ptr)
    (w : world) :
  run (producer_step produce this) 6 (mk_producer p_while started)
      (node_pause w this) =
    (Suspended, mk_producer p_observe paused,
     set_monitor (node_pause w this) this paused, []) /\
  run (producer_step produce this) 3 (mk_producer p_observe paused)
      (node_start w this) =
    (Running, mk_producer p_while started,
     produce (set_monitor (node_start w this) this started), [ev_produce]).
Proof.
  split.
  - cbn [run]. unfold node_pause. producer_steps. reflexivity.
  - cbn [run]. unfold node_start. producer_steps. reflexivity.
Qed.

(** ** Where a pushed packet ends *)

(** X15: [outpin::push] disposes of the packet exactly once: it is
    either queued by the pipe or freed when the call returns, never both
    and never neither; it is queued exactly when the pipe accepted it. *)
Theorem outpin_push_disposes_once w o pk :
  disposed (outpin_push w o pk).2 = 1%nat /\
  (ev_delete pk ∈ (outpin_push w o pk).2 <->
   forall r, ev_pipe_push r true ∉ (outpin_push w o pk).2).
Proof.
  unfold outpin_push.
  destruct (pin_pipe w o) as [[r p]|].
  - destruct (pipe_push p pk) as [p' [|]]; simpl.
    + assert (Hacc : forall l, ev_pipe_push r true ∈
                ev_access r :: ev_pipe_push r true :: l).
      { intros l. rewrite !elem_of_cons. auto. }
      destruct (pipe_output p') as [i|]; simpl; (split; [reflexivity|]);
        (split; [intros H; rewrite !elem_of_cons, elem_of_nil in H;
                 exfalso; intuition discriminate
                |intros H; exfalso; exact (H r (Hacc _))]).
    + split; [reflexivity|]. split.
      * intros _ r0. rewrite !elem_of_cons, elem_of_nil. intuition discriminate.
      * intros _. rewrite !elem_of_cons. auto 10.
  - simpl. split; [reflexivity|]. rewrite list_elem_of_singleton.
    split; [|reflexivity]. intros _ r0. rewrite list_elem_of_singleton.
    discriminate.
Qed.

(** ** The test nodes *)

Lemma disposed_app e1 e2 : disposed (e1 ++ e2) = (disposed e1 + disposed e2)%nat.
Proof.
  induction e1 as [|e e1 IH]; [reflexivity|].
  destruct e as [| |r [|]| | | | |]; simpl; rewrite IH; reflexivity.
Qed.

Lemma outpin_push_disposed w o pk : disposed (outpin_push w o pk).2 = 1%nat.
Proof.
  unfold outpin_push. destruct (pin_pipe w o) as [[r p]|]; [|reflexivity].
  destruct (pipe_push p pk) as [p' [|]]; simpl; [|reflexivity].
  destruct (pipe_output p'); reflexivity.
Qed.

Lemma push_each_disposed pk : forall d_outputs w,
  disposed (push_each d_outputs pk w).2 = length d_outputs.
Proof.
  induction d_outputs as [|o rest IH]; intros w; cbn [push_each]; [reflexivity|].
  pose proof (outpin_push_disposed w o pk) as H1.
  destruct (outpin_push w o pk) as [[w1 ret] e1].
  specialize (IH w1). destruct (push_each rest pk w1) as [w2 e2].
  simpl in *. rewrite disposed_app, H1, IH. reflexivity.
Qed.

(** X16: [produce_n::produce] hands out packets for [n] calls and none
    afterwards: after [k] calls the counter is [n - k], never below 0,
    and one packet per output pin and per productive call has been
    pushed, each of them queued by its pipe or freed (a rejected packet
    is not pushed again). *)
Theorem produce_n_rounds d_outputs pk : forall k n w,
  (produce_n_times d_outputs pk k n w).1.1 = n - N.of_nat k /\
  disposed (produce_n_times d_outputs pk k n w).2 =
    (length d_outputs * Nat.min k (N.to_nat n))%nat /\
  (n = 0 -> produce_n_times d_outputs pk k n w = (0, w, [])).
Proof.
  induction k as [|k IH]; intros n w; cbn [produce_n_times].
  - simpl. split; [lia|]. split; [lia|]. intros ->. reflexivity.
  - unfold produce_n_produce.
    destruct (N.eqb_spec n 0) as [->|Hn].
    + destruct (IH 0 w) as (H1 & H2 & H3).
      rewrite (H3 eq_refl). simpl. split; [reflexivity|]. split; [lia|].
      reflexivity.
    + pose proof (push_each_disposed pk d_outputs w) as Hd.
      destruct (push_each d_outputs pk w) as [w1 e1].
      destruct (IH (n - 1) w1) as (H1 & H2 & _).
      destruct (produce_n_times d_outputs pk k (n - 1) w1) as [[n2 w2] e2].
      simpl in *. split; [lia|]. split; [|intros; contradiction].
      rewrite disposed_app, Hd, H2.
      destruct (N.to_nat n) as [|m] eqn:Hm; [lia|].
      replace (N.to_nat (n - 1)) with m by lia.
      rewrite Nat.mul_succ_r. lia.
Qed.

Lemma pin_pipe_set_pipe_other w r p j :
  pin_ref w j <> Some r -> pin_pipe (set_pipe w r p) j = pin_pipe w j.
Proof.
  intros Hne. unfold pin_pipe, pin_ref in *. simpl.
  destruct (pins w !! j) as [pn|]; simpl in *; [|reflexivity].
  destruct (d_pipe_cr_sp pn) as [r0|]; simpl in *; [|reflexivity].
  rewrite lookup_insert_ne by congruence. reflexivity.
Qed.

(** [inpin::pop] changes nothing for a pin that holds another pipe. *)
Lemma inpin_pop_other w i j :
  pin_ref w j <> pin_ref w i ->
  pin_pipe (inpin_pop w i).1 j = pin_pipe w j.
Proof.
  intros Hne. unfold inpin_pop.
  destruct (pin_pipe w i) as [[r p]|] eqn:Hpp; [|reflexivity].
  destruct (negb (pipe_length p =? 0)); [|reflexivity].
  destruct (pipe_pop p) as [p' pk]. simpl.
  apply pin_pipe_set_pipe_other. intros Hj. apply Hne. rewrite Hj.
  unfold pin_pipe, pin_ref in *.
  destruct (pins w !! i) as [pn|]; simpl in *; [|discriminate].
  destruct (d_pipe_cr_sp pn) as [r0|]; simpl in *; [|discriminate].
  destruct (pipes w !! r0); simpl in *; [|discriminate].
  injection Hpp as <- _. reflexivity.
Qed.

(** X17: [consumption_counter::ready(i)] counts one packet for pin [i]
    but pops input pin 0: [received[i]] is incremented as a [size_t], by
    one below [2^64 - 1] and back to 0 at [2^64 - 1], and no other count
    changes, also when pin 0 was empty and nothing was popped, and a pin
    that holds another pipe than pin 0 peeks what it did before, so its
    queue is never drained. *)
Theorem consumption_counter_ready_pops_pin_0 d_inputs i received w input_0 :
  d_inputs !! 0%nat = Some input_0 -> (i < length received)%nat ->
  let '(received', w') := consumption_counter_ready d_inputs i received w in
  received' !! i = size_t_succ <$> received !! i /\
  (forall n, received !! i = Some n -> n < 2 ^ 64 - 1 ->
     received' !! i = Some (n + 1)) /\
  (received !! i = Some (2 ^ 64 - 1) -> received' !! i = Some 0) /\
  (forall j, j <> i -> received' !! j = received !! j) /\
  w' = (inpin_pop w input_0).1 /\
  (inpin_peek w input_0 = false -> w' = w) /\
  (forall j, pin_ref w j <> pin_ref w input_0 ->
     inpin_peek w' j = inpin_peek w j).
Proof.
  intros H0 Hi. unfold consumption_counter_ready. rewrite H0.
  assert (Hs : alter size_t_succ i received !! i = size_t_succ <$> received !! i)
    by apply list_lookup_alter_eq.
  split; [exact Hs|].
  split.
  { intros n Hn Hlt. rewrite Hs, Hn. simpl. f_equal.
    unfold size_t_succ. apply N.mod_small. lia. }
  split.
  { intros Hn. rewrite Hs, Hn. reflexivity. }
  split; [intros j Hj; apply list_lookup_alter_ne; congruence|].
  split; [reflexivity|]. split.
  - unfold inpin_peek, inpin_pop.
    destruct (pin_pipe w input_0) as [[r p]|]; [|reflexivity].
    intros ->. reflexivity.
  - intros j Hj. unfold inpin_peek. rewrite inpin_pop_other by exact Hj.
    reflexivity.
Qed.

Lemma produce_n_rounds_witness :
  (produce_n_times [0%nat] pk0 3 2 (w_AX 1 0)).1.1 = 0 /\
  disposed (produce_n_times [0%nat] pk0 3 2 (w_AX 1 0)).2 = 2%nat.
Proof.
  destruct (produce_n_rounds [0%nat] pk0 3 2 (w_AX 1 0)) as (H1 & H2 & _).
  rewrite H1, H2. split; reflexivity.
Defined.

Lemma consumption_counter_ready_pops_pin_0_witness :
  let '(received', w') :=
    consumption_counter_ready [1%nat; 2%nat] 1 [0; 2 ^ 64 - 1] w_two_queued in
  received' !! 1%nat = Some 0 /\
  inpin_peek w' 2%nat = true /\ inpin_peek w' 1%nat = false.
Proof.
  pose proof (consumption_counter_ready_pops_pin_0 [1%nat; 2%nat] 1
                [0; 2 ^ 64 - 1] w_two_queued 1%nat eq_refl) as H.
  destruct (consumption_counter_ready [1%nat; 2%nat] 1 [0; 2 ^ 64 - 1]
              w_two_queued) as [received' w'] eqn:Hr.
  destruct H as (_ & _ & H1 & _ & Hw & _ & Hpeek); [simpl; lia|].
  split; [|split].
  - apply H1. reflexivity.
  - rewrite Hpeek; [reflexivity|]. vm_compute. discriminate.
  - rewrite Hw. reflexivity.
Defined.

(** ** Pin names *)

Lemma append_inj_r a x y : String.append a x = String.append a y -> x = y.
Proof.
  induction a as [|c a IH]; simpl; [auto|]. intros [= H]. auto.
Qed.

Lemma mod_256_shift a : a mod 256 = ((48 + a) mod 256 + 208) mod 256.
Proof.
  rewrite N.Div0.add_mod_idemp_l.
  replace (48 + a + 208) with (a + 1 * 256) by lia.
  rewrite N.Div0.mod_add. reflexivity.
Qed.

Lemma pin_digit_eq i j :
  pin_digit i = pin_digit j <-> (i mod 256 = j mod 256)%nat.
Proof.
  unfold pin_digit.
  assert (Hlt : forall k, (48 + N.of_nat k) mod 256 < 256).
  { intros k. apply N.mod_lt. discriminate. }
  split.
  - intros Heq. apply (f_equal Ascii.N_of_ascii) in Heq.
    rewrite !Ascii.N_ascii_embedding in Heq by apply Hlt.
    apply Nat2N.inj. rewrite !Nat2N.inj_mod. change (N.of_nat 256) with 256.
    rewrite (mod_256_shift (N.of_nat i)), (mod_256_shift (N.of_nat j)), Heq.
    reflexivity.
  - intros H. apply (f_equal N.of_nat) in H. rewrite !Nat2N.inj_mod in H.
    change (N.of_nat 256) with 256 in H.
    rewrite <- (N.Div0.add_mod_idemp_r 48 (N.of_nat i)).
    rewrite <- (N.Div0.add_mod_idemp_r 48 (N.of_nat j)). rewrite H. reflexivity.
Qed.

(** X18: the constructors of [producer] and [consumer] create the asked
    number of pins, none of them connected, each inpin bound to the
    node's own monitor.  The names end in the character ['0' + i] cut to
    eight bits, so two pins of a node have the same name exactly when
    their indices agree modulo 256. *)
Theorem constructed_pins (name_r : string) (this : node_ptr) (n : nat) :
  length (producer_outputs name_r n) = n /\
  length (consumer_inputs name_r this n) = n /\
  (forall i, (i < n)%nat ->
     producer_outputs name_r n !! i =
       Some (mk_pin (numbered_name name_r "_out" i) None outpin) /\
     consumer_inputs name_r this n !! i =
       Some (mk_pin (numbered_name name_r "_in" i) None (inpin this))) /\
  (forall tag i j,
     numbered_name name_r tag i = numbered_name name_r tag j <->
     (i mod 256 = j mod 256)%nat).
Proof.
  unfold producer_outputs, consumer_inputs.
  split; [rewrite length_fmap, length_seq; reflexivity|].
  split; [rewrite length_fmap, length_seq; reflexivity|].
  split.
  - intros i Hi. rewrite !list_lookup_fmap, !lookup_seq_lt by exact Hi.
    split; reflexivity.
  - intros tag i j. rewrite <- pin_digit_eq. unfold numbered_name. split.
    + intros H. apply append_inj_r in H. congruence.
    + intros ->. reflexivity.
Qed.

Lemma constructed_pins_witness :
  (3 < 300)%nat /\
  numbered_name "gen" "_out" 3 = "gen_out3" /\
  numbered_name "gen" "_out" 259 = numbered_name "gen" "_out" 3 /\
  numbered_name "gen" "_out" 3 <> numbered_name "gen" "_out" 5.
Proof.
  split; [lia|]. split; [reflexivity|].
  destruct (constructed_pins "gen" 0%nat 300) as (_ & _ & _ & Hnames).
  split.
  - apply Hnames. reflexivity.
  - intros H. apply Hnames in H. discriminate H.
Defined.

(** ** From one node to the next *)

(** A push through an outpin on a pipe without caps queues the packet at
    the back. *)
Lemma outpin_push_unlimited w o pn r p pk :
  pins w !! o = Some pn -> d_pipe_cr_sp pn = Some r -> pipes w !! r = Some p ->
  d_max_length p = 0 -> d_max_weight p = 0 ->
  pins (outpin_push w o pk).1.1 = pins w /\
  pipes (outpin_push w o pk).1.1 =
    <[r := mk_pipe (pipe_name p) (d_packets p ++ [pk]) (d_input_p p)
                   (d_output_p p) 0 0]> (pipes w).
Proof.
  intros Ho Hr Hp Hl Hw. split; [apply pins_outpin_push|].
  unfold outpin_push. rewrite (pin_pipe_Some _ _ _ _ _ Ho Hr Hp).
  unfold pipe_push, within_cap. rewrite Hl, Hw. simpl.
  destruct (d_output_p p); simpl; rewrite ?pipes_inpin_incoming; reflexivity.
Qed.

(** A pop through an inpin takes the packet at the front. *)
Lemma inpin_pop_front w i pn r p pk rest :
  pins w !! i = Some pn -> d_pipe_cr_sp pn = Some r -> pipes w !! r = Some p ->
  d_packets p = pk :: rest ->
  inpin_pop w i =
    (set_pipe w r (mk_pipe (pipe_name p) rest (d_input_p p) (d_output_p p)
                           (d_max_length p) (d_max_weight p)), Some pk).
Proof.
  intros Hi Hr Hp Hq. unfold inpin_pop.
  rewrite (pin_pipe_Some _ _ _ _ _ Hi Hr Hp).
  unfold pipe_length, pipe_pop. rewrite Hq. reflexivity.
Qed.

(** X19: packets travel in order.  After an outpin that holds no pipe, or
    shares the pipe it holds with another pin, has been connected to an
    inpin that held no pipe, with both caps 0, two packets pushed on the
    outpin are popped from the inpin in the order they were pushed, after
    which the inpin peeks false and pops nothing. *)
Theorem connect_push_pop_in_order w this other tp op pk_a pk_b :
  world_inv w -> not_last_holder w other ->
  pins w !! this = Some tp -> pins w !! other = Some op ->
  direction tp = dir_in -> class op = outpin -> d_pipe_cr_sp tp = None ->
  exists w1 e1,
    pin_connect w this other 0 0 = Some (w1, e1) /\
    let w2 := (outpin_push w1 other pk_a).1.1 in
    let w3 := (outpin_push w2 other pk_b).1.1 in
    inpin_peek w1 this = false /\
    inpin_peek w3 this = true /\
    (inpin_pop w3 this).2 = Some pk_a /\
    (inpin_pop (inpin_pop w3 this).1 this).2 = Some pk_b /\
    inpin_peek (inpin_pop (inpin_pop w3 this).1 this).1 this = false /\
    (inpin_pop (inpin_pop (inpin_pop w3 this).1 this).1 this).2 = None.
Proof.
  intros Hinv Hsh Hthis Hother Hdir Hcl Hnull.
  destruct (pin_connect_new w this other tp op 0 0
              (world_inv_except other w Hinv)
              (not_last_holder_defined w other Hsh)
              Hthis Hother Hdir Hcl Hnull)
    as (w1 & Hc & Hpipes1 & Ho1 & Ht1 & _ & _).
  set (r := new_pipe_ptr w) in *. set (nm := pipe_label op tp) in *.
  assert (Hp1 : pipes w1 !! r = Some (pipe_new nm other this 0 0)).
  { rewrite Hpipes1. apply lookup_insert_eq. }
  destruct (outpin_push_unlimited w1 other _ r _ pk_a Ho1 eq_refl Hp1
              eq_refl eq_refl) as [Hpins2 Hpipes2].
  set (w2 := (outpin_push w1 other pk_a).1.1) in *.
  assert (Hp2 : pipes w2 !! r =
                Some (mk_pipe nm [pk_a] (Some other) (Some this) 0 0)).
  { rewrite Hpipes2. apply lookup_insert_eq. }
  assert (Ho2 : pins w2 !! other = Some (with_pipe_ref (Some r) op))
    by (rewrite Hpins2; exact Ho1).
  destruct (outpin_push_unlimited w2 other _ r _ pk_b Ho2 eq_refl Hp2
              eq_refl eq_refl) as [Hpins3 Hpipes3].
  set (w3 := (outpin_push w2 other pk_b).1.1) in *.
  assert (Hp3 : pipes w3 !! r =
                Some (mk_pipe nm [pk_a; pk_b] (Some other) (Some this) 0 0)).
  { rewrite Hpipes3. apply lookup_insert_eq. }
  assert (Ht3 : pins w3 !! this = Some (with_pipe_ref (Some r) tp))
    by (rewrite Hpins3, Hpins2; exact Ht1).
  pose proof (inpin_pop_front w3 this _ r _ pk_a [pk_b] Ht3 eq_refl Hp3 eq_refl)
    as Hpop1. simpl in Hpop1.
  set (w4 := set_pipe w3 r (mk_pipe nm [pk_b] (Some other) (Some this) 0 0)) in *.
  assert (Hp4 : pipes w4 !! r =
                Some (mk_pipe nm [pk_b] (Some other) (Some this) 0 0))
    by apply lookup_insert_eq.
  pose proof (inpin_pop_front w4 this _ r _ pk_b [] Ht3 eq_refl Hp4 eq_refl)
    as Hpop2. simpl in Hpop2.
  set (w5 := set_pipe w4 r (mk_pipe nm [] (Some other) (Some this) 0 0)) in *.
  assert (Hpp5 : pin_pipe w5 this =
                 Some (r, mk_pipe nm [] (Some other) (Some this) 0 0)).
  { apply (pin_pipe_Some w5 this _ r _ Ht3 eq_refl). apply lookup_insert_eq. }
  eexists w1, _. split; [exact Hc|]. cbv zeta. fold w2. fold w3.
  split.
  { unfold inpin_peek. rewrite (pin_pipe_Some _ _ _ _ _ Ht1 eq_refl Hp1).
    reflexivity. }
  split.
  { unfold inpin_peek. rewrite (pin_pipe_Some _ _ _ _ _ Ht3 eq_refl Hp3).
    reflexivity. }
  rewrite Hpop1. cbn [fst snd]. rewrite Hpop2. cbn [fst snd].
  split; [reflexivity|]. split; [reflexivity|].
  unfold inpin_peek, inpin_pop. rewrite Hpp5. split; reflexivity.
Qed.

Lemma connect_push_pop_in_order_witness :
  let w := (outpin_push (w_AX 0 0) 0%nat pk0).1.1 in
  world_inv w /\ not_last_holder w 0%nat /\
  exists w1 e1,
    pin_connect w 2%nat 0%nat 0 0 = Some (w1, e1) /\
    pin_ref w1 0%nat = Some 1%nat /\
    (inpin_pop (outpin_push (outpin_push w1 0%nat pk1).1.1 0%nat pk0).1.1
               2%nat).2 = Some pk1 /\
    inpin_peek w1 1%nat = true.
Proof.
  intros w.
  assert (Hinv : world_inv w) by apply outpin_push_inv, w_AX_inv.
  assert (Hsh : not_last_holder w 0%nat).
  { intros r Hr. exists 1%nat. split; [discriminate|].
    vm_compute in Hr. injection Hr as <-. reflexivity. }
  split; [exact Hinv|]. split; [exact Hsh|].
  destruct (connect_push_pop_in_order w 2%nat 0%nat
              (mk_pin "Y" None (inpin 0%nat)) (mk_pin "A" (Some 0%nat) outpin)
              pk1 pk0 Hinv Hsh eq_refl eq_refl eq_refl eq_refl eq_refl)
    as (w1 & e1 & Hc & _ & _ & Hpop & _).
  exists w1, e1. split; [exact Hc|]. split; [|split; [exact Hpop|]].
  - vm_compute in Hc. injection Hc as <- _. reflexivity.
  - vm_compute in Hc. injection Hc as <- _. reflexivity.
Defined.

(** ** Two outpins on one pipe *)

(** Where the invariant holds, the pin the first block disconnects is
    the outpin itself. *)
Lemma input_of_pipe_of_self w other op q :
  world_inv w -> pins w !! other = Some op -> class op = outpin ->
  input_of_pipe_of w other = Some q -> q = other.
Proof.
  intros [Hok _] Ho Hcl. unfold input_of_pipe_of, pin_pipe. rewrite Ho. simpl.
  destruct (d_pipe_cr_sp op) as [r|] eqn:Hr; simpl; [|discriminate].
  destruct (Hok other op Ho r Hr) as (p & Hp & Hend).
  rewrite Hp. simpl. rewrite Hcl in Hend. congruence.
Qed.

(** X20: connecting an outpin that holds no pipe, or shares the pipe it
    holds with another pin, to an inpin that already owns a pipe does not
    detach the outpin that fed the pipe before: afterwards the new
    outpin, the previous one and the inpin all hold the same pipe, so
    both outpins push into it. *)
Theorem connect_reuse_keeps_previous_outpin w this other tp op b pb r ml mw :
  world_inv w -> not_last_holder w other ->
  pins w !! this = Some tp -> pins w !! other = Some op ->
  direction tp = dir_in -> class op = outpin ->
  d_pipe_cr_sp tp = Some r ->
  pins w !! b = Some pb -> d_pipe_cr_sp pb = Some r -> b <> other ->
  exists w' e,
    pin_connect w this other ml mw = Some (w', e) /\
    pin_ref w' other = Some r /\ pin_ref w' b = Some r /\
    pin_ref w' this = Some r /\
    ev_disconnect b ∉ e.
Proof.
  intros Hinv Hsh Hthis Hother Hdir Hcl Hr Hb Hrb Hbo.
  destruct (pin_connect_reuse w this other tp op r ml mw
              (world_inv_except other w Hinv)
              (not_last_holder_defined w other Hsh)
              Hthis Hother Hdir Hcl Hr)
    as (w' & pX & HpX & Hc & _ & Ho' & Hj & _).
  assert (Hne : this <> other).
  { intros ->. rewrite Hthis in Hother. injection Hother as ->.
    apply class_outpin_direction in Hcl. congruence. }
  assert (Hq : forall q, input_of_pipe_of w other = Some q -> q = other).
  { intros q. apply (input_of_pipe_of_self w other op q Hinv Hother Hcl). }
  eexists w', _. split; [exact Hc|].
  split; [unfold pin_ref; rewrite Ho'; reflexivity|].
  split.
  { unfold pin_ref. rewrite (Hj b Hbo), disconnect_input_of_live_pins.
    rewrite decide_False; [rewrite Hb; exact Hrb|].
    intros H. apply Hq in H. congruence. }
  split.
  { unfold pin_ref. rewrite (Hj this Hne).
    rewrite (disconnect_input_of_live_inpin w other this tp (proj2 Hinv) Hthis Hdir).
    exact Hr. }
  rewrite disconnect_input_of_live_events.
  destruct (pin_pipe w other) as [[r0 p0]|] eqn:Hpp.
  - destruct (pipe_input p0) as [q|] eqn:Hin.
    + assert (q = other).
      { apply Hq. unfold input_of_pipe_of. rewrite Hpp. exact Hin. }
      subst q. simpl. rewrite !elem_of_cons, elem_of_nil.
      intros [H|[H|[H|[H|[H|[]]]]]]; try discriminate. congruence.
    + simpl. rewrite !elem_of_cons, elem_of_nil.
      intros [H|[H|[H|[H|[]]]]]; discriminate.
  - simpl. rewrite !elem_of_cons, elem_of_nil.
    intros [H|[H|[]]]; discriminate.
Qed.

Lemma connect_reuse_keeps_previous_outpin_witness :
  world_inv w_BY /\ not_last_holder w_BY 0%nat /\
  exists w' e,
    pin_connect w_BY 2%nat 0%nat 0 0 = Some (w', e) /\
    pin_ref w' 0%nat = Some 0%nat /\ pin_ref w' 3%nat = Some 0%nat.
Proof.
  assert (Hsh : not_last_holder w_BY 0%nat).
  { apply (not_last_holder_null _ 0%nat (mk_pin "A" None outpin)); reflexivity. }
  split; [exact w_BY_inv|]. split; [exact Hsh|].
  destruct (connect_reuse_keeps_previous_outpin w_BY 2%nat 0%nat
              (mk_pin "Y" (Some 0%nat) (inpin 0%nat)) (mk_pin "A" None outpin)
              3%nat (mk_pin "B" (Some 0%nat) outpin) 0%nat 0 0 w_BY_inv Hsh)
    as (w' & e & Hc & H1 & H2 & _); try reflexivity; try discriminate.
  exists w', e. auto.
Defined.

Lemma outpin_push_frame_witness :
  state_of (node_pause (w_AX 0 0) 0%nat) 0%nat <> started /\
  state_of (outpin_push (node_pause (w_AX 0 0) 0%nat) 0%nat pk0).1.1 0%nat
    = pause_requested.
Proof.
  split; [discriminate|].
  destruct (outpin_push_frame (node_pause (w_AX 0 0) 0%nat) 0%nat pk0)
    as (_ & _ & H & _).
  rewrite H; [reflexivity|discriminate].
Defined.

Lemma loops_call_only_their_callback_witness :
  ev_produce ∉
    (exec (consumer_step (ready_pop [1%nat; 2%nat]) 0%nat [1%nat; 2%nat])
          [act_thread; act_other (req_push 0%nat pk0); act_thread; act_thread;
           act_thread; act_thread]
          (mk_consumer c_entry paused) (w_AX 0 0)).2.
Proof.
  destruct (loops_call_only_their_callback (fun w => w)
              (ready_pop [1%nat; 2%nat]) 0%nat [1%nat; 2%nat]
              [act_thread; act_other (req_push 0%nat pk0); act_thread;
               act_thread; act_thread; act_thread] (w_AX 0 0)) as [Hc _].
  apply Hc.
Defined.
